(** * gokyle/tlv: Tag-Length-Value records and lists of them

    A shallow embedding of [tlv.go] together with the parts of the Go
    standard library it calls ([encoding/binary], [io], [bytes.Buffer]),
    followed by the properties of the record codec and of the record list.

    Conventions.
    - Go's [int] is modelled as [Z]; the conversion [int32(x)] is written
      out as wrap-around to the signed 32-bit range.
    - A [[]byte] is a [list byte]; the one place where slices alias
      (the copy made by [newTLV]) is treated in [Module Heap].
    - A function that may panic returns an [outcome]; a Go result pair
      [(v, err)] is modelled by [result]. *)

From Stdlib Require Import ZArith List Lia Bool Arith.
From Stdlib.Strings Require Import Byte.
From Equations Require Import Equations.
Import ListNotations.
Local Open Scope Z_scope.

(** ** Machine integers *)

(** [uint32(x)]: the low 32 bits of [x]. *)
Definition uint32 (x : Z) : Z := x mod 2 ^ 32.

(** [int32(x)]: the low 32 bits of [x], read as a two's complement number. *)
Definition int32 (x : Z) : Z := (x + 2 ^ 31) mod 2 ^ 32 - 2 ^ 31.

(** The values an [int32] variable can hold. *)
Definition in_int32 (x : Z) : Prop := - 2 ^ 31 <= x < 2 ^ 31.

Definition in_int32b (x : Z) : bool := (- 2 ^ 31 <=? x) && (x <? 2 ^ 31).

(** [byte(x)]: the low 8 bits of [x]. *)
Definition byte_of_Z (z : Z) : byte :=
  match Byte.of_N (Z.to_N (z mod 256)) with
  | Some b => b
  | None => x00
  end.

(** [uint32(b)] for a byte [b]. *)
Definition Z_of_byte (b : byte) : Z := Z.of_N (Byte.to_N b).

(** ** Errors and results *)

(** The error values the package compares by identity: [io.EOF],
    [io.ErrUnexpectedEOF] and the three errors declared in [tlv.go]. *)
Inductive error : Type :=
| EOF
| ErrUnexpectedEOF
| ErrTLVRead
| ErrTLVWrite
| ErrTagNotFound.

Definition error_eqb (a b : error) : bool :=
  match a, b with
  | EOF, EOF
  | ErrUnexpectedEOF, ErrUnexpectedEOF
  | ErrTLVRead, ErrTLVRead
  | ErrTLVWrite, ErrTLVWrite
  | ErrTagNotFound, ErrTagNotFound => true
  | _, _ => false
  end.

(** A Go result pair [(v, err)]: [Ok v] is [(v, nil)]; [Err p e] is
    [(p, e)] with [e] non-nil, where [p] is whatever value accompanies the
    error ([None] for a nil value). *)
Inductive result (A : Type) : Type :=
| Ok (v : A)
| Err (partial : option A) (e : error).
Arguments Ok {A} v.
Arguments Err {A} partial e.

(** A call either returns or panics. *)
Inductive outcome (A : Type) : Type :=
| Done (a : A)
| Panicked.
Arguments Done {A} a.
Arguments Panicked {A}.

(** ** Slices of bytes *)

(** [make([]byte, n)] for [n >= 0]: [n] zero bytes. *)
Definition make (n : nat) : list byte := repeat x00 n.

(** [make([]byte, n)] for an [int] [n]: the runtime panics
    ("makeslice: len out of range") when [n] is negative. *)
Definition makeslice (n : Z) : outcome (list byte) :=
  if n <? 0 then Panicked else Done (make (Z.to_nat n)).

(** [copy(dst, src)]: overwrites the first [min(len(dst), len(src))] bytes
    of [dst]; gives the new contents of [dst] and the number of bytes
    copied. *)
Definition copy (dst src : list byte) : list byte * nat :=
  let n := Nat.min (length dst) (length src) in
  (firstn n src ++ skipn n dst, n).

(** [len(s)] as an [int]. *)
Definition len (s : list byte) : Z := Z.of_nat (length s).

(** ** [encoding/binary], little endian byte order *)

Module binary.

(** [LittleEndian.PutUint32(b, v)] on a 4-byte slice. *)
Definition PutUint32 (v : Z) : list byte :=
  [ byte_of_Z v;
    byte_of_Z (Z.shiftr v 8);
    byte_of_Z (Z.shiftr v 16);
    byte_of_Z (Z.shiftr v 24) ].

(** [LittleEndian.Uint32(b)]; its callers here pass exactly 4 bytes. *)
Definition Uint32 (b : list byte) : Z :=
  Z.lor (Z.lor (Z.lor (Z_of_byte (nth 0 b x00))
                      (Z.shiftl (Z_of_byte (nth 1 b x00)) 8))
               (Z.shiftl (Z_of_byte (nth 2 b x00)) 16))
        (Z.shiftl (Z_of_byte (nth 3 b x00)) 24).

End binary.

(** ** [bytes.Buffer] *)

(** The buffer is its unread bytes: reads take from the front, writes
    append at the back. *)
Module Buffer.

Definition t : Type := list byte.

(** [bytes.NewBuffer(buf)]. *)
Definition NewBuffer (buf : list byte) : t := buf.

(** [b.Read(p)]: "Read reads the next len(p) bytes from the buffer or until
    the buffer is drained. The return value n is the number of bytes read.
    If the buffer has no data to return, err is io.EOF (unless len(p) is
    zero); otherwise it is nil."  Gives the new contents of [p], then
    [n], [err] and the buffer after the call. *)
Definition Read (b : t) (p : list byte) : list byte * nat * option error * t :=
  match b with
  | [] =>
      match p with
      | [] => (p, 0%nat, None, b)
      | _ :: _ => (p, 0%nat, Some EOF, b)
      end
  | _ :: _ =>
      let (p', n) := copy p b in
      (p', n, None, skipn n b)
  end.

(** [b.Write(p)]: appends [p]; "The return value n is the length of p; err
    is always nil." *)
Definition Write (b : t) (p : list byte) : nat * option error * t :=
  (length p, None, b ++ p).

End Buffer.

(** ** [io] *)

Module io.

(** [io.ReadFull(r, buf)] on a buffer: "ReadFull reads exactly len(buf)
    bytes from r into buf. It returns the number of bytes copied and an
    error if fewer bytes were read. The error is EOF only if no bytes were
    read. If an EOF happens after reading some but not all the bytes,
    ReadFull returns ErrUnexpectedEOF."  Gives the new contents of [buf],
    the number of bytes copied, the error and the buffer after the call. *)
Definition ReadFull (r : Buffer.t) (buf : list byte)
  : list byte * nat * option error * Buffer.t :=
  match buf, r with
  | [], _ => (buf, 0%nat, None, r)
  | _ :: _, [] => (buf, 0%nat, Some EOF, r)
  | _ :: _, _ :: _ =>
      let (buf', n) := copy buf r in
      if (n <? length buf)%nat
      then (buf', n, Some ErrUnexpectedEOF, skipn n r)
      else (buf', n, None, skipn n r)
  end.

End io.

(** [binary.Read(r, binary.LittleEndian, &n)] for [n] of type [int32]:
    four bytes are read with [io.ReadFull]; an error is returned as it is
    and [n] keeps its value, otherwise [n] becomes the decoded integer. *)
Definition binary_Read_int32 (r : Buffer.t) (n : Z)
  : Z * option error * Buffer.t :=
  let '(bs, _, err, r') := io.ReadFull r (make 4) in
  match err with
  | Some e => (n, Some e, r')
  | None => (int32 (binary.Uint32 bs), None, r')
  end.

(** [binary.Write(w, binary.LittleEndian, v)] for [v] of type [int32]:
    the four bytes are written with one [w.Write], whose error is
    returned. *)
Definition binary_Write_int32 (w : Buffer.t) (v : Z)
  : option error * Buffer.t :=
  let '(_, err, w') := Buffer.Write w (binary.PutUint32 (uint32 v)) in
  (err, w').

(** ** Records *)

(** [type record struct { tag int; length int; value []byte }], with the
    accessor methods [Tag], [Length] and [Value] as projections. *)
Record record : Type := mkRecord {
  Tag : Z;
  Length : Z;
  Value : list byte
}.

(** A value of the interface type [TLV]: nil or a pointer to a record. *)
Definition TLV : Type := option record.

(** [bytes.Equal(a, b)]: same length and the same bytes. *)
Fixpoint bytes_Equal (a b : list byte) : bool :=
  match a, b with
  | [], [] => true
  | x :: a', y :: b' => Byte.eqb x y && bytes_Equal a' b'
  | _, _ => false
  end.

(** [Equals]: two nil values are equal, a nil and a record are not, two
    records are equal when tag, length and value bytes agree. *)
Definition Equals (tlv1 tlv2 : TLV) : bool :=
  match tlv1, tlv2 with
  | None, None => true
  | None, Some _ => false
  | Some _, None => false
  | Some t1, Some t2 =>
      if negb (Tag t1 =? Tag t2) then false
      else if negb (Length t1 =? Length t2) then false
      else if negb (bytes_Equal (Value t1) (Value t2)) then false
      else true
  end.

(** [newTLV]: the record with the given tag, whose value is a fresh slice
    of [len(value)] bytes into which [value] is copied. *)
Definition newTLV (tag : Z) (value : list byte) : record :=
  let length_ := len value in
  let value_ := make (length value) in
  let (value_, _) := copy value_ value in
  {| Tag := tag; Length := length_; Value := value_ |}.

(** [readRecord]: reads the tag, the length, and then once into a fresh
    slice of that length.  The two bare [return]s after a failed
    [binary.Read], and the one after a failed [r.Read], give a nil record
    with the error; a read of fewer bytes than the length gives the
    record with [ErrTLVWrite].  Gives the reader as the call leaves it. *)
Definition readRecord (r : Buffer.t) : outcome (result record * Buffer.t) :=
  let n := 0 in
  let '(n, err, r) := binary_Read_int32 r n in
  match err with
  | Some e => Done (Err None e, r)
  | None =>
      let tag := n in
      let '(n, err, r) := binary_Read_int32 r n in
      match err with
      | Some e => Done (Err None e, r)
      | None =>
          let length_ := n in
          match makeslice length_ with
          | Panicked => Panicked
          | Done value =>
              let '(value, l, err, r) := Buffer.Read r value in
              let tlv := {| Tag := tag; Length := length_; Value := value |} in
              match err with
              | Some e => Done (Err None e, r)
              | None =>
                  if negb (Z.of_nat l =? Length tlv)
                  then Done (Err (Some tlv) ErrTLVWrite, r)
                  else Done (Ok tlv, r)
              end
          end
      end
  end.

(** [tlvFromBytes]: [readRecord] on a new buffer over the bytes. *)
Definition tlvFromBytes (rec : list byte) : outcome (result record * Buffer.t) :=
  let recBuf := Buffer.NewBuffer rec in
  readRecord recBuf.

(** [writeRecord]: writes [int32(tag)], [int32(length)] and the value;
    a write of a number of value bytes other than the length is
    [ErrTLVWrite].  Gives the error and the writer as the call leaves
    it. *)
Definition writeRecord (tlv : record) (w : Buffer.t) : option error * Buffer.t :=
  let tmp := int32 (Tag tlv) in
  let (err, w) := binary_Write_int32 w tmp in
  match err with
  | Some e => (Some e, w)
  | None =>
      let tmp := int32 (Length tlv) in
      let (err, w) := binary_Write_int32 w tmp in
      match err with
      | Some e => (Some e, w)
      | None =>
          let '(n, err, w) := Buffer.Write w (Value tlv) in
          match err with
          | Some e => (Some e, w)
          | None =>
              if negb (Z.of_nat n =? Length tlv) then (Some ErrTLVWrite, w)
              else (None, w)
          end
      end
  end.

(** ** Lists of records *)

(** [TLVList]: the records of the [container/list] list, front first. *)
Definition TLVList : Type := list record.

(** [New]: the empty list. *)
Definition New : TLVList := [].

(** The method [Length] of [TLVList]. *)
Definition TLVList_Length (tl : TLVList) : Z := Z.of_nat (length tl).

(** [Get]: the loop from [Front()] along [Next()], returning at the first
    element whose tag is [tag]; [ErrTagNotFound] after the last one. *)
Fixpoint Get (recs : TLVList) (tag : Z) : result record :=
  match recs with
  | [] => Err None ErrTagNotFound
  | e :: rest => if Tag e =? tag then Ok e else Get rest tag
  end.

(** [GetAll]: the same loop, appending every matching element to [ts]. *)
Fixpoint GetAll_loop (recs : TLVList) (tag : Z) (ts : list record) : list record :=
  match recs with
  | [] => ts
  | e :: rest =>
      if Tag e =? tag then GetAll_loop rest tag (ts ++ [e])
      else GetAll_loop rest tag ts
  end.

Definition GetAll (recs : TLVList) (tag : Z) : list record :=
  GetAll_loop recs tag [].

(** The inner loop of [Remove] and [RemoveRecord]: unlinks the first
    element that [matches] and stops; gives the list and [removed]. *)
Fixpoint remove_scan (matches : record -> bool) (recs : TLVList) : TLVList * Z :=
  match recs with
  | [] => ([], 0)
  | e :: rest =>
      if matches e then (rest, 0 + 1)
      else let (rest', removed) := remove_scan matches rest in
           (e :: rest', removed)
  end.

(** Case analysis that keeps the equation, for the loops below. *)
Definition inspect {A : Type} (a : A) : {b : A | a = b} := exist _ a eq_refl.

(** The outer loop of [Remove] and [RemoveRecord]: scans again from the
    front until a scan removes nothing. *)
Equations? remove_loop (matches : record -> bool) (recs : TLVList)
    (totalRemoved : Z) : TLVList * Z by wf (length recs) lt :=
  remove_loop matches recs totalRemoved
    with inspect (remove_scan matches recs) := {
    | exist _ (recs', removed) Hscan with inspect (removed =? 0) := {
      | exist _ true _ => (recs', totalRemoved)
      | exist _ false Hremoved =>
          remove_loop matches recs' (totalRemoved + removed) } }.
Proof.
  clear remove_loop.
  revert recs' removed Hscan Hremoved.
  induction recs as [|e rest IH]; simpl; intros recs' removed Hscan Hremoved.
  - inversion Hscan; subst. discriminate.
  - destruct (matches e).
    + inversion Hscan; subst. lia.
    + destruct (remove_scan matches rest) as [rest' k] eqn:Hrest.
      inversion Hscan; subst. simpl.
      specialize (IH rest' removed eq_refl Hremoved). lia.
Qed.

(** [Remove]: the list as the call leaves it, and [totalRemoved]. *)
Definition Remove (recs : TLVList) (tag : Z) : TLVList * Z :=
  remove_loop (fun e => Tag e =? tag) recs 0.

(** [RemoveRecord]: as [Remove], matching with [Equals]. *)
Definition RemoveRecord (recs : TLVList) (rec : TLV) : TLVList * Z :=
  remove_loop (fun e => Equals (Some e) rec) recs 0.

(** [AddRecord]: [PushBack]. *)
Definition AddRecord (recs : TLVList) (rec : record) : TLVList :=
  recs ++ [rec].

(** [Add]: builds the record with [newTLV] and pushes it at the back. *)
Definition Add (recs : TLVList) (tag : Z) (value : list byte) : TLVList :=
  let rec := newTLV tag value in
  AddRecord recs rec.

(** The method [Write] of [TLVList]: writes the records front to back and
    stops at the first error. *)
Fixpoint Write (recs : TLVList) (w : Buffer.t) : option error * Buffer.t :=
  match recs with
  | [] => (None, w)
  | e :: rest =>
      let (err, w) := writeRecord e w in
      match err with
      | Some _ => (err, w)
      | None => Write rest w
      end
  end.

(** The loop of [Read]: decodes records until [readRecord] reports an
    error; [io.EOF] then becomes a nil error.  The list built so far is
    returned in both cases. *)
Equations? Read_loop (r : Buffer.t) (recs : TLVList)
  : outcome (result TLVList) by wf (length r) lt :=
  Read_loop r recs with inspect (readRecord r) := {
    | exist _ Panicked _ => Panicked
    | exist _ (Done (Err _ err, _)) _ =>
        Done (if error_eqb err EOF then Ok recs else Err (Some recs) err)
    | exist _ (Done (Ok tlv, r')) Hread =>
        Read_loop r' (AddRecord recs tlv) }.
Proof.
  clear Read_loop.
  assert (Hskip : forall (k : nat) (l : list byte), (length (skipn k l) <= length l)%nat)
    by (intros k l; rewrite length_skipn; lia).
  unfold readRecord, binary_Read_int32, io.ReadFull in Hread.
  destruct r as [|b0 [|b1 [|b2 [|b3 r]]]]; try discriminate Hread.
  destruct r as [|c0 [|c1 [|c2 [|c3 r]]]]; try discriminate Hread.
  cbn [make repeat copy length Nat.min firstn skipn app Nat.ltb Nat.leb] in Hread.
  destruct (makeslice _) as [value|]; [|discriminate Hread].
  destruct (Buffer.Read r value) as [[[value' l] err] r''] eqn:Hval.
  assert (Hle : (length r'' <= length r)%nat).
  { unfold Buffer.Read in Hval. destruct r as [|d r].
    - destruct value; inversion Hval; subst; simpl; lia.
    - destruct (copy value (d :: r)) as [p' n]. inversion Hval; subst.
      apply Hskip. }
  destruct err; [discriminate Hread|].
  destruct (negb _); inversion Hread; subst.
  simpl. lia.
Qed.

(** [Read] takes the reader and builds a [TLVList] from it. *)
Definition Read (r : Buffer.t) : outcome (result TLVList) :=
  let recs := New in
  Read_loop r recs.

(** ** Slices as views of backing arrays *)

(** [newTLV] is the one function of the package whose result depends on
    whether two slices share storage.  Here a slice is a window
    [offset, offset + slen) of a backing array held in a store, as Go has
    it; writing through a slice changes what every slice over the same
    array reads.  [Heap.load] maps a record of this model to the [record]
    used everywhere else. *)
Module Heap.

(** The backing arrays, addressed by their position in the store. *)
Definition store : Type := list (list byte).

Record slice : Type := mkSlice {
  array : nat;
  offset : nat;
  slen : nat
}.

(** The bytes of array [a]. *)
Definition array_at (h : store) (a : nat) : list byte := nth a h [].

(** Replaces array [a]. *)
Definition set_array (h : store) (a : nat) (bs : list byte) : store :=
  firstn a h ++ bs :: skipn (S a) h.

(** The slice lies within an array of the store. *)
Definition valid (h : store) (s : slice) : Prop :=
  (array s < length h)%nat /\
  (offset s + slen s <= length (array_at h (array s)))%nat.

(** The bytes a slice reads. *)
Definition bytes (h : store) (s : slice) : list byte :=
  firstn (slen s) (skipn (offset s) (array_at h (array s))).

(** [make([]byte, n)]: a fresh zeroed array and the slice over all of it. *)
Definition make (h : store) (n : nat) : store * slice :=
  (h ++ [repeat x00 n], {| array := length h; offset := 0; slen := n |}).

(** [copy(dst, src)]: the bytes of [src] overwrite the front of [dst]'s
    window. *)
Definition copy (h : store) (dst src : slice) : store * nat :=
  let n := Nat.min (slen dst) (slen src) in
  let data := firstn n (bytes h src) in
  let arr := array_at h (array dst) in
  let arr' := firstn (offset dst) arr ++ data ++ skipn (offset dst + n) arr in
  (set_array h (array dst) arr', n).

(** [s[i] = b]; an index out of range panics. *)
Definition store_byte (h : store) (s : slice) (i : nat) (b : byte) : outcome store :=
  if (i <? slen s)%nat then
    let arr := array_at h (array s) in
    let k := (offset s + i)%nat in
    Done (set_array h (array s) (firstn k arr ++ b :: skipn (S k) arr))
  else Panicked.

(** A record whose value is a slice. *)
Record hrecord : Type := mkHRecord {
  tag : Z;
  length_ : Z;
  value : slice
}.

Definition newTLV (h : store) (tag0 : Z) (value0 : slice) : store * hrecord :=
  let length0 := Z.of_nat (slen value0) in
  let (h, v) := make h (slen value0) in
  let (h, _) := copy h v value0 in
  (h, {| tag := tag0; length_ := length0; value := v |}).

(** The record as the rest of the development sees it. *)
Definition load (h : store) (t : hrecord) : record :=
  {| Tag := tag t; Length := length_ t; Value := bytes h (value t) |}.

End Heap.

(** ** Writers that can fail *)

(** [writeRecord] and [Write] take any [io.Writer].  Here the writer is a
    state of type [W] with the method [Write(p) (n int, err error)], which
    gives [n], [err] and the state after the call; [E] is the type of the
    writer's own errors.  With [Buffer.Write] as the writer these are
    [writeRecord] and [Write] above. *)
Section Writers.

Variables W E : Type.
Variable Writer_Write : W -> list byte -> nat * option E * W.

(** An error that [writeRecord] returns: the writer's, or the package's. *)
Inductive write_error : Type :=
| WriterError (e : E)
| TLVError (e : error).

Definition binary_Write_int32_to (w : W) (v : Z) : option E * W :=
  let '(_, err, w') := Writer_Write w (binary.PutUint32 (uint32 v)) in
  (err, w').

Definition writeRecord_to (tlv : record) (w : W) : option write_error * W :=
  let tmp := int32 (Tag tlv) in
  let (err, w) := binary_Write_int32_to w tmp in
  match err with
  | Some e => (Some (WriterError e), w)
  | None =>
      let tmp := int32 (Length tlv) in
      let (err, w) := binary_Write_int32_to w tmp in
      match err with
      | Some e => (Some (WriterError e), w)
      | None =>
          let '(n, err, w) := Writer_Write w (Value tlv) in
          match err with
          | Some e => (Some (WriterError e), w)
          | None =>
              if negb (Z.of_nat n =? Length tlv)
              then (Some (TLVError ErrTLVWrite), w)
              else (None, w)
          end
      end
  end.

Fixpoint Write_to (recs : TLVList) (w : W) : option write_error * W :=
  match recs with
  | [] => (None, w)
  | e :: rest =>
      let (err, w) := writeRecord_to e w in
      match err with
      | Some _ => (err, w)
      | None => Write_to rest w
      end
  end.

End Writers.

Arguments WriterError {E} e.
Arguments TLVError {E} e.
Arguments binary_Write_int32_to {W E} Writer_Write w v.
Arguments writeRecord_to {W E} Writer_Write tlv w.
Arguments Write_to {W E} Writer_Write recs w.

(** A writer with room for [capacity] bytes, as a file on a full disk or a
    fixed buffer: a write that does not fit keeps the bytes that fit,
    returns their number and reports [io.ErrShortWrite]. *)
Module LimitedWriter.

Record t : Type := mk {
  capacity : nat;
  content : list byte
}.

Inductive err : Type :=
| ErrShortWrite.

Definition Write (w : t) (p : list byte) : nat * option err * t :=
  let room := (capacity w - length (content w))%nat in
  if (length p <=? room)%nat
  then (length p, None,
        {| capacity := capacity w; content := content w ++ p |})
  else (room, Some ErrShortWrite,
        {| capacity := capacity w; content := content w ++ firstn room p |}).

End LimitedWriter.

(** ** Vocabulary of the statements *)

(** The bytes [writeRecord] appends for a record. *)
Definition encode (tlv : record) : list byte :=
  binary.PutUint32 (uint32 (int32 (Tag tlv))) ++
  binary.PutUint32 (uint32 (int32 (Length tlv))) ++
  Value tlv.

(** The bytes [Write] appends for a list. *)
Definition encode_all (recs : TLVList) : list byte :=
  flat_map encode recs.

(** The invariant of records: the length field is the length of the value. *)
Definition consistent (tlv : record) : Prop := Length tlv = len (Value tlv).

(** A record of the wire format: consistent, tag and length in 32 bits. *)
Definition wire_record (tlv : record) : Prop :=
  consistent tlv /\ in_int32 (Tag tlv) /\ in_int32 (Length tlv).

(** The length field of a stream that holds at least a header. *)
Definition length_field (s : list byte) : Z :=
  int32 (binary.Uint32 (firstn 4 (skipn 4 s))).

(** The streams on which [readRecord] reports [io.EOF]: nothing left,
    nothing after the tag, or nothing after the header of a record whose
    length field is positive. *)
Definition ends_with_EOF (s : list byte) : Prop :=
  length s = 0%nat \/ length s = 4%nat \/
  (length s = 8%nat /\ 0 < length_field s).

(** The result of [Read] with some records put in front of its list. *)
Definition with_records_before (recs : TLVList)
    (res : outcome (result TLVList)) : outcome (result TLVList) :=
  match res with
  | Done (Ok l) => Done (Ok (recs ++ l))
  | Done (Err p e) => Done (Err (option_map (app recs) p) e)
  | Panicked => Panicked
  end.

(** * Properties *)

(** ** Integers and bytes *)

Lemma int32_in_range (x : Z) : in_int32 (int32 x).
Proof.
  unfold in_int32, int32.
  pose proof (Z.mod_pos_bound (x + 2 ^ 31) (2 ^ 32) ltac:(lia)). lia.
Qed.

Lemma in_int32b_spec (x : Z) : in_int32b x = true <-> in_int32 x.
Proof.
  unfold in_int32b, in_int32.
  rewrite andb_true_iff, Z.leb_le, Z.ltb_lt. reflexivity.
Qed.

Lemma int32_id (x : Z) : in_int32 x -> int32 x = x.
Proof.
  unfold in_int32, int32. intros H.
  rewrite Z.mod_small by lia. lia.
Qed.

Lemma int32_fixpoint_iff (x : Z) : int32 x = x <-> in_int32 x.
Proof.
  split; [|apply int32_id].
  intros H. rewrite <- H. apply int32_in_range.
Qed.

Lemma int32_uint32 (x : Z) : int32 (uint32 x) = int32 x.
Proof.
  unfold int32, uint32.
  rewrite Zplus_mod_idemp_l. reflexivity.
Qed.

Lemma int32_congr_mod (x : Z) : int32 x mod 2 ^ 32 = x mod 2 ^ 32.
Proof.
  unfold int32.
  rewrite Zminus_mod_idemp_l.
  replace (x + 2 ^ 31 - 2 ^ 31) with x by lia. reflexivity.
Qed.

Lemma uint32_int32 (x : Z) : uint32 (int32 x) = uint32 x.
Proof. apply int32_congr_mod. Qed.

Lemma Z_of_byte_range (b : byte) : 0 <= Z_of_byte b < 256.
Proof.
  unfold Z_of_byte. pose proof (Byte.to_N_bounded b). lia.
Qed.

Lemma Z_of_byte_of_Z (z : Z) : Z_of_byte (byte_of_Z z) = z mod 256.
Proof.
  unfold Z_of_byte, byte_of_Z.
  pose proof (Z.mod_pos_bound z 256 ltac:(lia)) as Hb.
  destruct (Byte.of_N (Z.to_N (z mod 256))) as [b|] eqn:Hof.
  - apply Byte.to_of_N in Hof. rewrite Hof. lia.
  - apply Byte.of_N_None_iff in Hof. lia.
Qed.

Lemma byte_of_Z_of_byte (b : byte) : byte_of_Z (Z_of_byte b) = b.
Proof.
  unfold byte_of_Z.
  rewrite Z.mod_small by apply Z_of_byte_range.
  unfold Z_of_byte. rewrite N2Z.id, Byte.of_to_N. reflexivity.
Qed.

Lemma byte_of_Z_mod (z : Z) : byte_of_Z (z mod 256) = byte_of_Z z.
Proof.
  unfold byte_of_Z. rewrite Z.mod_mod by lia. reflexivity.
Qed.

(** A number below [2 ^ k] has no bit in common with a multiple of
    [2 ^ k]. *)
Lemma land_low_high (a b k : Z) :
  0 <= k -> 0 <= a < 2 ^ k -> Z.land a (b * 2 ^ k) = 0.
Proof.
  intros Hk Ha. apply Z.bits_inj'. intros n Hn.
  rewrite Z.land_spec, Z.bits_0.
  destruct (Z.lt_ge_cases n k) as [Hlt|Hge].
  - rewrite Z.mul_pow2_bits_low by lia. apply andb_false_r.
  - replace (Z.testbit a n) with false; [reflexivity|].
    symmetry. destruct (Z.eq_dec a 0) as [->|Hnz]; [apply Z.bits_0|].
    apply Z.bits_above_log2; [lia|].
    apply Z.log2_lt_pow2; [lia|].
    pose proof (Z.pow_le_mono_r 2 k n ltac:(lia) Hge). lia.
Qed.

(** Joining a number below [2 ^ k] with one shifted left by [k] bits adds
    them. *)
Lemma lor_shiftl_add (a b k : Z) :
  0 <= k -> 0 <= a < 2 ^ k -> Z.lor a (Z.shiftl b k) = a + b * 2 ^ k.
Proof.
  intros Hk Ha.
  rewrite Z.shiftl_mul_pow2 by assumption.
  pose proof (land_low_high a b k Hk Ha) as Hland.
  rewrite <- Z.lxor_lor by exact Hland.
  symmetry. apply Z.add_nocarry_lxor. exact Hland.
Qed.

Lemma Uint32_bytes (b0 b1 b2 b3 : byte) :
  binary.Uint32 [b0; b1; b2; b3] =
  Z_of_byte b0 + Z_of_byte b1 * 2 ^ 8 + Z_of_byte b2 * 2 ^ 16 +
  Z_of_byte b3 * 2 ^ 24.
Proof.
  unfold binary.Uint32. cbn [nth].
  pose proof (Z_of_byte_range b0). pose proof (Z_of_byte_range b1).
  pose proof (Z_of_byte_range b2). pose proof (Z_of_byte_range b3).
  rewrite (lor_shiftl_add (Z_of_byte b0) _ 8) by lia.
  rewrite (lor_shiftl_add _ (Z_of_byte b2) 16) by lia.
  rewrite (lor_shiftl_add _ (Z_of_byte b3) 24) by lia.
  reflexivity.
Qed.

Lemma Uint32_range (b0 b1 b2 b3 : byte) :
  0 <= binary.Uint32 [b0; b1; b2; b3] < 2 ^ 32.
Proof.
  rewrite Uint32_bytes.
  pose proof (Z_of_byte_range b0). pose proof (Z_of_byte_range b1).
  pose proof (Z_of_byte_range b2). pose proof (Z_of_byte_range b3).
  lia.
Qed.

(** Decoding what [PutUint32] wrote gives the low 32 bits back. *)
Lemma Uint32_PutUint32 (v : Z) :
  binary.Uint32 (binary.PutUint32 v) = v mod 2 ^ 32.
Proof.
  unfold binary.PutUint32. rewrite Uint32_bytes.
  rewrite !Z_of_byte_of_Z, !Z.shiftr_div_pow2 by lia.
  change (2 ^ 8) with 256. change (2 ^ 16) with 65536.
  change (2 ^ 24) with 16777216. change (2 ^ 32) with 4294967296.
  Z.div_mod_to_equations. lia.
Qed.

Lemma byte_of_Z_eq (z : Z) (b : byte) :
  z mod 256 = Z_of_byte b -> byte_of_Z z = b.
Proof.
  intros H. rewrite <- byte_of_Z_mod, H. apply byte_of_Z_of_byte.
Qed.

(** Writing what [Uint32] decoded gives the four bytes back. *)
Lemma PutUint32_Uint32 (b0 b1 b2 b3 : byte) :
  binary.PutUint32 (binary.Uint32 [b0; b1; b2; b3]) = [b0; b1; b2; b3].
Proof.
  unfold binary.PutUint32. rewrite Uint32_bytes.
  pose proof (Z_of_byte_range b0). pose proof (Z_of_byte_range b1).
  pose proof (Z_of_byte_range b2). pose proof (Z_of_byte_range b3).
  rewrite !Z.shiftr_div_pow2 by lia.
  change (2 ^ 8) with 256. change (2 ^ 16) with 65536.
  change (2 ^ 24) with 16777216.
  f_equal; [|f_equal; [|f_equal; [|f_equal]]];
    apply byte_of_Z_eq; Z.div_mod_to_equations; lia.
Qed.

(** ** Slices and buffers *)

Lemma length_make (n : nat) : length (make n) = n.
Proof. apply repeat_length. Qed.

Lemma skipn_make (k n : nat) : skipn k (make n) = make (n - k).
Proof.
  unfold make. revert n.
  induction k as [|k IH]; intros n.
  - rewrite Nat.sub_0_r. reflexivity.
  - destruct n as [|n]; [reflexivity|]. simpl. apply IH.
Qed.

(** Copying a slice into a fresh slice of the same length gives its
    bytes. *)
Lemma copy_make (v : list byte) : copy (make (length v)) v = (v, length v).
Proof.
  unfold copy. rewrite length_make, Nat.min_id, firstn_all.
  rewrite skipn_all2 by (rewrite length_make; lia).
  rewrite app_nil_r. reflexivity.
Qed.

Lemma newTLV_fields (tag : Z) (value : list byte) :
  newTLV tag value = {| Tag := tag; Length := len value; Value := value |}.
Proof. unfold newTLV. rewrite copy_make. reflexivity. Qed.

(** Reading into a slice no longer than the buffer fills it. *)
Lemma Buffer_Read_full (v rest : list byte) :
  Buffer.Read (v ++ rest) (make (length v)) = (v, length v, None, rest).
Proof.
  unfold Buffer.Read.
  destruct (v ++ rest) as [|b s] eqn:Hs.
  - apply app_eq_nil in Hs. destruct Hs; subst. reflexivity.
  - rewrite <- Hs. unfold copy.
    rewrite length_make, length_app, Nat.min_l by lia.
    rewrite firstn_app, firstn_all, Nat.sub_diag, firstn_O, app_nil_r.
    rewrite (skipn_all2 (make _)) by (rewrite length_make; lia).
    rewrite skipn_app, skipn_all, Nat.sub_diag, skipn_O, app_nil_r.
    reflexivity.
Qed.

(** Reading into a slice longer than the buffer drains the buffer; the
    rest of the slice keeps its zeros. *)
Lemma Buffer_Read_short (b : byte) (s : list byte) (n : nat) :
  (length (b :: s) < n)%nat ->
  Buffer.Read (b :: s) (make n) =
  ((b :: s) ++ make (n - length (b :: s)), length (b :: s), None, []).
Proof.
  intros Hlt. unfold Buffer.Read, copy.
  rewrite length_make, Nat.min_r by lia.
  rewrite firstn_all, skipn_all, skipn_make. reflexivity.
Qed.

(** Reading from a drained buffer. *)
Lemma Buffer_Read_empty (p : list byte) :
  Buffer.Read [] p = (p, 0%nat, match p with [] => None | _ => Some EOF end, []).
Proof. destruct p; reflexivity. Qed.

(** ** Reading and writing the header fields *)

Lemma binary_Read_int32_bytes (b0 b1 b2 b3 : byte) (rest : list byte) (n : Z) :
  binary_Read_int32 (b0 :: b1 :: b2 :: b3 :: rest) n =
  (int32 (binary.Uint32 [b0; b1; b2; b3]), None, rest).
Proof. reflexivity. Qed.

Lemma binary_Read_int32_put (x : Z) (rest : list byte) (n : Z) :
  binary_Read_int32 (binary.PutUint32 (uint32 (int32 x)) ++ rest) n =
  (int32 x, None, rest).
Proof.
  unfold binary.PutUint32 at 1. cbn [app].
  rewrite binary_Read_int32_bytes.
  change [byte_of_Z ?v; _; _; _] with (binary.PutUint32 (uint32 (int32 x))).
  rewrite Uint32_PutUint32. fold (uint32 (uint32 (int32 x))).
  rewrite !int32_uint32.
  rewrite (int32_id _ (int32_in_range x)). reflexivity.
Qed.

Lemma binary_Write_int32_append (w : Buffer.t) (v : Z) :
  binary_Write_int32 w v = (None, w ++ binary.PutUint32 (uint32 v)).
Proof. reflexivity. Qed.

(** ** [writeRecord] and [readRecord] *)

(** [writeRecord] always appends the encoding; it reports [ErrTLVWrite]
    exactly when the length field disagrees with the value. *)
Lemma writeRecord_append (tlv : record) (w : Buffer.t) :
  writeRecord tlv w =
  (if Length tlv =? len (Value tlv) then None else Some ErrTLVWrite,
   w ++ encode tlv).
Proof.
  unfold writeRecord. rewrite !binary_Write_int32_append.
  unfold Buffer.Write, encode, len. rewrite <- !app_assoc.
  rewrite (Z.eqb_sym (Length tlv)).
  destruct (Z.of_nat (length (Value tlv)) =? Length tlv); reflexivity.
Qed.

Lemma writeRecord_consistent (tlv : record) (w : Buffer.t) :
  consistent tlv -> writeRecord tlv w = (None, w ++ encode tlv).
Proof.
  intros H. rewrite writeRecord_append.
  unfold consistent in H. rewrite H, Z.eqb_refl. reflexivity.
Qed.

(** [readRecord] once the eight bytes of the header are there. *)
Lemma readRecord_header (t0 t1 t2 t3 l0 l1 l2 l3 : byte) (rest : list byte) :
  readRecord (t0 :: t1 :: t2 :: t3 :: l0 :: l1 :: l2 :: l3 :: rest) =
  let tag := int32 (binary.Uint32 [t0; t1; t2; t3]) in
  let length_ := int32 (binary.Uint32 [l0; l1; l2; l3]) in
  if length_ <? 0 then Panicked
  else
    let '(value, l, err, r) := Buffer.Read rest (make (Z.to_nat length_)) in
    match err with
    | Some e => Done (Err None e, r)
    | None =>
        if negb (Z.of_nat l =? length_)
        then Done (Err (Some {| Tag := tag; Length := length_; Value := value |})
                       ErrTLVWrite, r)
        else Done (Ok {| Tag := tag; Length := length_; Value := value |}, r)
    end.
Proof.
  unfold readRecord. rewrite !binary_Read_int32_bytes.
  cbv zeta. unfold makeslice.
  destruct (int32 (binary.Uint32 [l0; l1; l2; l3]) <? 0); reflexivity.
Qed.

(** Decoding an encoded record: the tag comes back reduced to 32 bits. *)
Lemma readRecord_encode (tlv : record) (rest : list byte) :
  consistent tlv -> in_int32 (Length tlv) ->
  readRecord (encode tlv ++ rest) =
  Done (Ok {| Tag := int32 (Tag tlv); Length := Length tlv; Value := Value tlv |},
        rest).
Proof.
  intros Hc Hl. unfold readRecord, encode. rewrite <- !app_assoc.
  rewrite !binary_Read_int32_put.
  rewrite (int32_id _ Hl). unfold makeslice.
  unfold consistent, len in Hc.
  destruct (Length tlv <? 0) eqn:Hneg; [lia|].
  rewrite Hc, Nat2Z.id, Buffer_Read_full.
  cbn [Length]. rewrite Z.eqb_refl. reflexivity.
Qed.

(** ** Equality of records *)

Lemma bytes_Equal_eq (a b : list byte) : bytes_Equal a b = true <-> a = b.
Proof.
  revert b. induction a as [|x a IH]; intros [|y b]; simpl.
  - tauto.
  - split; discriminate.
  - split; discriminate.
  - rewrite andb_true_iff, IH. split.
    + intros [Hxy ->]. apply Byte.byte_dec_bl in Hxy. congruence.
    + intros H. inversion H; subst. split; [apply Byte.byte_dec_lb|]; reflexivity.
Qed.

(** [Equals] on two records: same tag, same length, same bytes. *)
Lemma Equals_records (t1 t2 : record) :
  Equals (Some t1) (Some t2) = true <->
  Tag t1 = Tag t2 /\ Length t1 = Length t2 /\ Value t1 = Value t2.
Proof.
  unfold Equals.
  destruct (Tag t1 =? Tag t2) eqn:Ht; simpl;
    [apply Z.eqb_eq in Ht | apply Z.eqb_neq in Ht; split; [discriminate | tauto]].
  destruct (Length t1 =? Length t2) eqn:Hl; simpl;
    [apply Z.eqb_eq in Hl | apply Z.eqb_neq in Hl; split; [discriminate | tauto]].
  destruct (bytes_Equal (Value t1) (Value t2)) eqn:Hv; simpl.
  - apply bytes_Equal_eq in Hv. tauto.
  - split; [discriminate|]. intros (_ & _ & Hv').
    apply bytes_Equal_eq in Hv'. congruence.
Qed.

Lemma Equals_refl (t : record) : Equals (Some t) (Some t) = true.
Proof. apply Equals_records. auto. Qed.

(** ** Well-formed records *)

Lemma newTLV_consistent (tag : Z) (value : list byte) :
  consistent (newTLV tag value).
Proof. rewrite newTLV_fields. reflexivity. Qed.

Lemma newTLV_wire_record (tag : Z) (value : list byte) :
  in_int32 tag -> in_int32 (len value) -> wire_record (newTLV tag value).
Proof.
  intros Ht Hl. rewrite newTLV_fields. repeat split; simpl; try apply Ht; apply Hl.
Qed.

Lemma wire_record_consistent (tlv : record) : wire_record tlv -> consistent tlv.
Proof. intros H. apply H. Qed.

(** The consistent records are the records [newTLV] makes. *)
Lemma consistent_iff_newTLV (tlv : record) :
  consistent tlv <-> tlv = newTLV (Tag tlv) (Value tlv).
Proof.
  rewrite newTLV_fields. unfold consistent. split.
  - intros H. destruct tlv as [t l v]. simpl in *. rewrite H. reflexivity.
  - intros H. rewrite H. reflexivity.
Qed.

(** A well-formed record decodes to itself, whatever follows it. *)
Lemma readRecord_encode_wire (tlv : record) (rest : list byte) :
  wire_record tlv -> readRecord (encode tlv ++ rest) = Done (Ok tlv, rest).
Proof.
  intros (Hc & Ht & Hl). rewrite readRecord_encode by assumption.
  rewrite (int32_id _ Ht). destruct tlv; reflexivity.
Qed.

(** ** The loop of [Read] *)

(** Two equations for the same call of [readRecord] give one outcome. *)
Ltac same_readRecord :=
  match goal with
  | H1 : readRecord ?r = _, H2 : readRecord ?r = _ |- _ =>
      rewrite H1 in H2; inversion H2; subst; clear H2
  end.

(** One iteration of the loop, by the outcome of [readRecord]. *)
Lemma Read_loop_Ok (r r' : Buffer.t) (recs : TLVList) (tlv : record) :
  readRecord r = Done (Ok tlv, r') ->
  Read_loop r recs = Read_loop r' (AddRecord recs tlv).
Proof.
  intros H. funelim (Read_loop r recs); same_readRecord; reflexivity.
Qed.

Lemma Read_loop_Err (r r' : Buffer.t) (recs : TLVList) (p : option record)
    (err : error) :
  readRecord r = Done (Err p err, r') ->
  Read_loop r recs =
  Done (if error_eqb err EOF then Ok recs else Err (Some recs) err).
Proof.
  intros H. funelim (Read_loop r recs); same_readRecord; reflexivity.
Qed.

Lemma Read_loop_Panicked (r : Buffer.t) (recs : TLVList) :
  readRecord r = Panicked -> Read_loop r recs = Panicked.
Proof.
  intros H. funelim (Read_loop r recs); same_readRecord; reflexivity.
Qed.

Lemma encode_all_cons (tlv : record) (recs : TLVList) :
  encode_all (tlv :: recs) = encode tlv ++ encode_all recs.
Proof. reflexivity. Qed.

Lemma encode_all_app (recs1 recs2 : TLVList) :
  encode_all (recs1 ++ recs2) = encode_all recs1 ++ encode_all recs2.
Proof. apply flat_map_app. Qed.

(** The loop decodes a run of well-formed records and goes on with what
    follows them. *)
Lemma Read_loop_encode_all (recs acc : TLVList) (tail : list byte) :
  Forall wire_record recs ->
  Read_loop (encode_all recs ++ tail) acc = Read_loop tail (acc ++ recs).
Proof.
  intros Hall. revert acc.
  induction Hall as [|tlv recs Htlv _ IH]; intros acc.
  - rewrite app_nil_r. reflexivity.
  - rewrite encode_all_cons, <- app_assoc.
    rewrite (Read_loop_Ok _ _ acc _ (readRecord_encode_wire tlv _ Htlv)).
    rewrite IH. unfold AddRecord. rewrite <- app_assoc. reflexivity.
Qed.

(** ** [Write] *)

Lemma Write_append (recs : TLVList) (w : Buffer.t) :
  Forall consistent recs -> Write recs w = (None, w ++ encode_all recs).
Proof.
  intros Hall. revert w.
  induction Hall as [|tlv recs Htlv _ IH]; intros w.
  - simpl. rewrite app_nil_r. reflexivity.
  - rewrite encode_all_cons. cbn [Write].
    rewrite (writeRecord_consistent _ _ Htlv), IH, <- app_assoc. reflexivity.
Qed.

Lemma Forall_wire_consistent (recs : TLVList) :
  Forall wire_record recs -> Forall consistent recs.
Proof. apply Forall_impl, wire_record_consistent. Qed.

Lemma Add_AddRecord (recs : TLVList) (tag : Z) (value : list byte) :
  Add recs tag value = AddRecord recs (newTLV tag value).
Proof. reflexivity. Qed.

(** Lists are built at the back. *)
Lemma fold_AddRecord (recs acc : TLVList) :
  fold_left AddRecord recs acc = acc ++ recs.
Proof.
  revert acc. induction recs as [|tlv recs IH]; intros acc; simpl.
  - rewrite app_nil_r. reflexivity.
  - rewrite IH. unfold AddRecord. rewrite <- app_assoc. reflexivity.
Qed.

Lemma Forall2_Equals_refl (recs : TLVList) :
  Forall2 (fun a b => Equals (Some a) (Some b) = true) recs recs.
Proof.
  induction recs; constructor; [apply Equals_refl | assumption].
Qed.

(** * The record codec *)

(** C1. For every record [R] whose tag and length lie in the signed 32-bit
    range (the length being that of its value, as in every record that
    [newTLV] makes; the value may be any byte sequence, the empty one
    included), [writeRecord] succeeds, and decoding the bytes it wrote
    gives a record [R'] with [Equals(R, R')]: same tag, same length, same
    value bytes. *)
Theorem record_roundtrip (R : record) :
  wire_record R ->
  exists (stream : list byte) (R' : record),
    writeRecord R [] = (None, stream) /\
    tlvFromBytes stream = Done (Ok R', []) /\
    Equals (Some R) (Some R') = true /\
    Tag R' = Tag R /\ Length R' = Length R /\ Value R' = Value R.
Proof.
  intros HR. exists (encode R), R.
  rewrite (writeRecord_consistent _ _ (wire_record_consistent _ HR)).
  unfold tlvFromBytes, Buffer.NewBuffer.
  pose proof (readRecord_encode_wire R [] HR) as Hread.
  rewrite app_nil_r in Hread. rewrite Hread, Equals_refl.
  repeat split; reflexivity.
Qed.

Lemma record_roundtrip_witness :
  wire_record (newTLV 7 [x00; xff; x61]) /\
  exists (stream : list byte) (R' : record),
    writeRecord (newTLV 7 [x00; xff; x61]) [] = (None, stream) /\
    tlvFromBytes stream = Done (Ok R', []) /\
    Equals (Some (newTLV 7 [x00; xff; x61])) (Some R') = true /\
    Tag R' = 7 /\ Length R' = 3 /\ Value R' = [x00; xff; x61].
Proof.
  assert (H : wire_record (newTLV 7 [x00; xff; x61])).
  { apply newTLV_wire_record; apply in_int32b_spec; reflexivity. }
  split; [exact H|].
  exact (record_roundtrip _ H).
Defined.

(** * The list codec *)

(** C2, as stated, fails: [Add] takes any [int] as the tag, and the wire
    format keeps 32 bits of it.  The list made by [Add(1<<32 + 5, "a")] is
    written without error and read back as one record with tag 5, which
    is not [Equals] to the original. *)
Lemma list_roundtrip_loses_wide_tag :
  Write (Add New (2 ^ 32 + 5) [x61]) [] =
    (None, [x05; x00; x00; x00; x01; x00; x00; x00; x61]) /\
  Read [x05; x00; x00; x00; x01; x00; x00; x00; x61] =
    Done (Ok [ {| Tag := 5; Length := 1; Value := [x61] |} ]) /\
  Forall2 (fun a b => Equals (Some a) (Some b) = false)
    (Add New (2 ^ 32 + 5) [x61])
    [ {| Tag := 5; Length := 1; Value := [x61] |} ].
Proof.
  split; [reflexivity|]. split; [reflexivity|].
  repeat constructor.
Qed.

(** C2, amended. For every list built by appending a sequence of records
    whose tags and lengths lie in the signed 32-bit range of the wire
    format, [Write] succeeds, and [Read] of the bytes it wrote ends
    without error with a list of the same length whose records are
    [Equals] to the originals, position by position. *)
Theorem list_roundtrip (records : list record) :
  Forall wire_record records ->
  let tlvl := fold_left AddRecord records New in
  exists (stream : list byte) (rtlvl : TLVList),
    Write tlvl [] = (None, stream) /\
    Read stream = Done (Ok rtlvl) /\
    TLVList_Length rtlvl = TLVList_Length tlvl /\
    Forall2 (fun a b => Equals (Some a) (Some b) = true) tlvl rtlvl.
Proof.
  intros Hall tlvl.
  assert (Htlvl : tlvl = records) by apply fold_AddRecord.
  rewrite Htlvl. exists (encode_all records), records.
  rewrite (Write_append _ _ (Forall_wire_consistent _ Hall)).
  unfold Read, New.
  pose proof (Read_loop_encode_all records [] [] Hall) as Hloop.
  rewrite app_nil_r in Hloop. rewrite Hloop.
  rewrite (Read_loop_Err [] [] _ None EOF eq_refl). simpl.
  repeat split. apply Forall2_Equals_refl.
Qed.

Lemma list_roundtrip_witness :
  Forall wire_record
    [newTLV 0 [x66; x6f; x6f]; newTLV 1 []; newTLV 0 [xff; x00]] /\
  exists (stream : list byte) (rtlvl : TLVList),
    Write (fold_left AddRecord
             [newTLV 0 [x66; x6f; x6f]; newTLV 1 []; newTLV 0 [xff; x00]] New)
          [] = (None, stream) /\
    Read stream = Done (Ok rtlvl) /\
    TLVList_Length rtlvl =
      TLVList_Length
        (fold_left AddRecord
           [newTLV 0 [x66; x6f; x6f]; newTLV 1 []; newTLV 0 [xff; x00]] New) /\
    Forall2 (fun a b => Equals (Some a) (Some b) = true)
      (fold_left AddRecord
         [newTLV 0 [x66; x6f; x6f]; newTLV 1 []; newTLV 0 [xff; x00]] New)
      rtlvl.
Proof.
  assert (H : Forall wire_record
                [newTLV 0 [x66; x6f; x6f]; newTLV 1 []; newTLV 0 [xff; x00]]).
  { repeat constructor; apply in_int32b_spec; reflexivity. }
  split; [exact H|].
  exact (list_roundtrip _ H).
Defined.

(** * What [readRecord] does, by the shape of the stream *)

(** Fewer than eight bytes: no header.  [io.ReadFull] reports [io.EOF]
    when it could read nothing and [io.ErrUnexpectedEOF] when it could
    read a part of the field. *)
Lemma readRecord_no_header (r : list byte) :
  (length r < 8)%nat ->
  readRecord r =
  Done (Err None (if (length r =? 0)%nat || (length r =? 4)%nat
                  then EOF else ErrUnexpectedEOF), []).
Proof.
  intros Hlen.
  destruct r as [|t0 [|t1 [|t2 [|t3 [|l0 [|l1 [|l2 [|l3 rest]]]]]]]];
    try reflexivity.
  simpl in Hlen. lia.
Qed.

(** A header with a negative length field: allocating the value panics. *)
Lemma readRecord_negative_length (t0 t1 t2 t3 l0 l1 l2 l3 : byte)
    (rest : list byte) :
  int32 (binary.Uint32 [l0; l1; l2; l3]) < 0 ->
  readRecord (t0 :: t1 :: t2 :: t3 :: l0 :: l1 :: l2 :: l3 :: rest) = Panicked.
Proof.
  intros Hneg. rewrite readRecord_header. cbv zeta.
  apply Z.ltb_lt in Hneg. rewrite Hneg. reflexivity.
Qed.

(** A header followed by all the bytes of the value: the record. *)
Lemma readRecord_whole (t0 t1 t2 t3 l0 l1 l2 l3 : byte) (rest : list byte) :
  let tag := int32 (binary.Uint32 [t0; t1; t2; t3]) in
  let length_ := int32 (binary.Uint32 [l0; l1; l2; l3]) in
  0 <= length_ <= len rest ->
  readRecord (t0 :: t1 :: t2 :: t3 :: l0 :: l1 :: l2 :: l3 :: rest) =
  Done (Ok {| Tag := tag; Length := length_;
              Value := firstn (Z.to_nat length_) rest |},
        skipn (Z.to_nat length_) rest).
Proof.
  intros tag length_ Hlen. rewrite readRecord_header. cbv zeta.
  fold length_. fold tag. unfold len in Hlen.
  destruct (length_ <? 0) eqn:Hneg; [lia|].
  pose proof (Buffer_Read_full (firstn (Z.to_nat length_) rest)
                (skipn (Z.to_nat length_) rest)) as Hread.
  rewrite firstn_skipn, length_firstn, Nat.min_l in Hread by lia.
  rewrite Hread.
  replace (Z.of_nat (Z.to_nat length_) =? length_) with true
    by (symmetry; apply Z.eqb_eq; lia).
  reflexivity.
Qed.

(** A header followed by fewer bytes than the length field says. *)
Lemma readRecord_short (t0 t1 t2 t3 l0 l1 l2 l3 : byte) (rest : list byte) :
  let tag := int32 (binary.Uint32 [t0; t1; t2; t3]) in
  let length_ := int32 (binary.Uint32 [l0; l1; l2; l3]) in
  len rest < length_ ->
  readRecord (t0 :: t1 :: t2 :: t3 :: l0 :: l1 :: l2 :: l3 :: rest) =
  Done (match rest with
        | [] => Err None EOF
        | _ :: _ =>
            Err (Some {| Tag := tag; Length := length_;
                         Value := rest ++ make (Z.to_nat length_ - length rest) |})
                ErrTLVWrite
        end, []).
Proof.
  intros tag length_ Hlen. rewrite readRecord_header. cbv zeta.
  fold length_. fold tag. unfold len in Hlen.
  destruct (length_ <? 0) eqn:Hneg; [lia|].
  destruct rest as [|b rest].
  - rewrite Buffer_Read_empty.
    destruct (make (Z.to_nat length_)) eqn:Hmk; [|reflexivity].
    apply (f_equal (@length byte)) in Hmk. rewrite length_make in Hmk.
    simpl in Hlen, Hmk. lia.
  - rewrite Buffer_Read_short by lia.
    replace (Z.of_nat (length (b :: rest)) =? length_) with false
      by (symmetry; apply Z.eqb_neq; lia).
    reflexivity.
Qed.

(** The four bytes of a header field are what [binary.Write] writes for
    the integer they decode to. *)
Lemma PutUint32_decoded (b0 b1 b2 b3 : byte) :
  binary.PutUint32 (uint32 (int32 (int32 (binary.Uint32 [b0; b1; b2; b3])))) =
  [b0; b1; b2; b3].
Proof.
  rewrite !uint32_int32. unfold uint32.
  rewrite Z.mod_small by apply Uint32_range.
  apply PutUint32_Uint32.
Qed.

(** A stream of at least eight bytes starts with a header. *)
Lemma header_split (r : list byte) :
  (8 <= length r)%nat ->
  exists t0 t1 t2 t3 l0 l1 l2 l3 rest,
    r = t0 :: t1 :: t2 :: t3 :: l0 :: l1 :: l2 :: l3 :: rest.
Proof.
  intros Hlen.
  destruct r as [|t0 [|t1 [|t2 [|t3 [|l0 [|l1 [|l2 [|l3 rest]]]]]]]];
    simpl in Hlen; try lia.
  repeat eexists.
Qed.

(** Every decoded record is well formed, and the bytes consumed for it
    are its encoding. *)
Lemma readRecord_Ok_inv (r r' : list byte) (tlv : record) :
  readRecord r = Done (Ok tlv, r') ->
  wire_record tlv /\ r = encode tlv ++ r'.
Proof.
  intros Hread.
  destruct (Nat.lt_ge_cases (length r) 8) as [Hlt|Hge].
  { rewrite readRecord_no_header in Hread by assumption. discriminate. }
  destruct (header_split r Hge)
    as (t0 & t1 & t2 & t3 & l0 & l1 & l2 & l3 & rest & ->).
  set (length_ := int32 (binary.Uint32 [l0; l1; l2; l3])).
  destruct (Z.lt_ge_cases length_ 0) as [Hneg|Hpos].
  { rewrite readRecord_negative_length in Hread by assumption. discriminate. }
  destruct (Z.lt_ge_cases (len rest) length_) as [Hshort|Hwhole].
  { rewrite readRecord_short in Hread by assumption.
    destruct rest; discriminate. }
  rewrite readRecord_whole in Hread by (fold length_; lia).
  fold length_ in Hread. inversion Hread; subst tlv r'; clear Hread.
  unfold len in Hwhole. split.
  - split; [|split; apply int32_in_range].
    unfold consistent, len. cbn [Length Value].
    rewrite length_firstn, Nat.min_l by lia. lia.
  - unfold encode. cbn [Tag Length Value]. unfold length_.
    rewrite !PutUint32_decoded. cbn [app].
    rewrite firstn_skipn. reflexivity.
Qed.

Lemma length_field_header (t0 t1 t2 t3 l0 l1 l2 l3 : byte) (rest : list byte) :
  length_field (t0 :: t1 :: t2 :: t3 :: l0 :: l1 :: l2 :: l3 :: rest) =
  int32 (binary.Uint32 [l0; l1; l2; l3]).
Proof. reflexivity. Qed.

(** The errors of [readRecord], by the shape of the stream. *)
Lemma readRecord_Err_inv (r r' : list byte) (p : option record) (e : error) :
  readRecord r = Done (Err p e, r') ->
  (e = EOF /\ ends_with_EOF r) \/
  (e = ErrUnexpectedEOF /\ (length r < 8)%nat /\
   length r <> 0%nat /\ length r <> 4%nat) \/
  (e = ErrTLVWrite /\ (8 < length r)%nat /\
   Z.of_nat (length r) - 8 < length_field r).
Proof.
  intros Hread. unfold ends_with_EOF.
  destruct (Nat.lt_ge_cases (length r) 8) as [Hlt|Hge].
  { rewrite readRecord_no_header in Hread by assumption.
    inversion Hread; subst; clear Hread.
    destruct (Nat.eqb_spec (length r) 0) as [H0|H0]; [left; auto|].
    destruct (Nat.eqb_spec (length r) 4) as [H4|H4]; [left; auto|].
    right. left. auto. }
  destruct (header_split r Hge)
    as (t0 & t1 & t2 & t3 & l0 & l1 & l2 & l3 & rest & ->).
  rewrite length_field_header.
  set (length_ := int32 (binary.Uint32 [l0; l1; l2; l3])).
  destruct (Z.lt_ge_cases length_ 0) as [Hneg|Hpos].
  { rewrite readRecord_negative_length in Hread by assumption. discriminate. }
  destruct (Z.lt_ge_cases (len rest) length_) as [Hshort|Hwhole].
  - rewrite readRecord_short in Hread by assumption.
    unfold len in Hshort.
    destruct rest as [|b rest]; inversion Hread; subst; clear Hread.
    + left. split; [reflexivity|]. right. right. simpl in *. split; [reflexivity|lia].
    + right. right. split; [reflexivity|]. simpl length in *. lia.
  - rewrite readRecord_whole in Hread by (fold length_; lia). discriminate.
Qed.

(** [readRecord] reports [io.EOF] on exactly the streams of
    [ends_with_EOF]. *)
Lemma readRecord_EOF (r : list byte) :
  ends_with_EOF r -> readRecord r = Done (Err None EOF, []).
Proof.
  intros [H0|[H4|[H8 Hpos]]].
  - rewrite readRecord_no_header by lia. rewrite H0. reflexivity.
  - rewrite readRecord_no_header by lia. rewrite H4. reflexivity.
  - destruct (header_split r ltac:(lia))
      as (t0 & t1 & t2 & t3 & l0 & l1 & l2 & l3 & rest & ->).
    destruct rest; [|simpl in H8; lia].
    rewrite length_field_header in Hpos.
    rewrite readRecord_short by (unfold len; simpl; lia). reflexivity.
Qed.

(** What the loop of [Read] returns: the stream is a run of encoded
    records followed by a tail on which [readRecord] fails, and the result
    is the list of those records, with the error of the tail unless it is
    [io.EOF]. *)
Lemma Read_loop_inv (r : Buffer.t) (acc : TLVList) (res : result TLVList) :
  Read_loop r acc = Done res ->
  exists (recs : TLVList) (tail r' : list byte) (p : option record) (e : error),
    Forall wire_record recs /\
    r = encode_all recs ++ tail /\
    readRecord tail = Done (Err p e, r') /\
    res = if error_eqb e EOF then Ok (acc ++ recs)
          else Err (Some (acc ++ recs)) e.
Proof.
  revert res. funelim (Read_loop r acc); intros res Hres.
  - match goal with
    | IH : forall res, Read_loop _ _ = Done res -> _ |- _ =>
        destruct (IH res Hres) as (recs' & tail & r'' & p & e & Hwf & Hr & Htail & Hres')
    end.
    destruct (readRecord_Ok_inv _ _ _ Hread) as [Htlv Hr0].
    exists (tlv :: recs'), tail, r'', p, e.
    split; [constructor; assumption|].
    split; [rewrite encode_all_cons, <- app_assoc, <- Hr; exact Hr0|].
    split; [exact Htail|].
    unfold AddRecord in Hres'. rewrite <- app_assoc in Hres'. exact Hres'.
  - exists [], r, t, partial, err.
    split; [constructor|]. split; [reflexivity|]. split; [assumption|].
    rewrite app_nil_r. inversion Hres. reflexivity.
  - discriminate.
Qed.

(** [readRecord] panics on exactly the streams that hold a header whose
    length field is negative. *)
Lemma readRecord_Panicked_iff (r : list byte) :
  readRecord r = Panicked <-> (8 <= length r)%nat /\ length_field r < 0.
Proof.
  split.
  - intros Hread.
    destruct (Nat.lt_ge_cases (length r) 8) as [Hlt|Hge].
    { rewrite readRecord_no_header in Hread by assumption. discriminate. }
    split; [assumption|].
    destruct (header_split r Hge)
      as (t0 & t1 & t2 & t3 & l0 & l1 & l2 & l3 & rest & ->).
    rewrite length_field_header.
    set (length_ := int32 (binary.Uint32 [l0; l1; l2; l3])).
    destruct (Z.lt_ge_cases length_ 0) as [Hneg|Hpos]; [assumption|].
    destruct (Z.lt_ge_cases (len rest) length_) as [Hshort|Hwhole].
    + rewrite readRecord_short in Hread by assumption. discriminate.
    + rewrite readRecord_whole in Hread by (fold length_; lia). discriminate.
  - intros [Hge Hneg].
    destruct (header_split r Hge)
      as (t0 & t1 & t2 & t3 & l0 & l1 & l2 & l3 & rest & ->).
    apply readRecord_negative_length. exact Hneg.
Qed.

(** * End of stream and errors in [Read] *)

(** C3, as stated, fails: a stream that ends right after a complete tag
    field, or right after a complete header that announces five value
    bytes, makes [readRecord] report [io.EOF], and [Read] ends without
    error although the stream stops inside a record. *)
Lemma Read_clean_inside_record :
  readRecord [x01; x00; x00; x00] = Done (Err None EOF, []) /\
  Read [x01; x00; x00; x00] = Done (Ok []) /\
  readRecord [x01; x00; x00; x00; x05; x00; x00; x00] = Done (Err None EOF, []) /\
  Read [x01; x00; x00; x00; x05; x00; x00; x00] = Done (Ok []).
Proof. repeat split; reflexivity. Qed.

(** C3, amended. [Read] ends without error exactly when the stream is a
    run of whole records followed by a tail on which [readRecord] reports
    [io.EOF]: nothing, a complete tag field and nothing more, or a
    complete header with a positive length field and nothing more.  A
    tail that stops inside the tag or the length field surfaces
    [io.ErrUnexpectedEOF]; a tail that holds at least one value byte but
    fewer than its length field says surfaces [ErrTLVWrite]. *)
Theorem Read_clean_iff_EOF :
  (forall (stream : list byte) (recs : TLVList),
     Read stream = Done (Ok recs) <->
     Forall wire_record recs /\
     exists tail, stream = encode_all recs ++ tail /\ ends_with_EOF tail) /\
  (forall (recs : TLVList) (tail : list byte),
     Forall wire_record recs ->
     (length tail < 8)%nat -> length tail <> 0%nat -> length tail <> 4%nat ->
     Read (encode_all recs ++ tail) = Done (Err (Some recs) ErrUnexpectedEOF)) /\
  (forall (recs : TLVList) (tail : list byte),
     Forall wire_record recs ->
     (8 < length tail)%nat -> Z.of_nat (length tail) - 8 < length_field tail ->
     Read (encode_all recs ++ tail) = Done (Err (Some recs) ErrTLVWrite)).
Proof.
  split; [|split].
  - intros stream recs. unfold Read, New. split.
    + intros Hread.
      destruct (Read_loop_inv _ _ _ Hread)
        as (recs' & tail & r' & p & e & Hwf & Hr & Htail & Hres).
      destruct (readRecord_Err_inv _ _ _ _ Htail)
        as [[-> Heof]|[[-> _]|[-> _]]]; simpl in Hres; try discriminate.
      inversion Hres; subst. split; [assumption|].
      exists tail. split; [reflexivity|assumption].
    + intros (Hwf & tail & -> & Heof).
      rewrite (Read_loop_encode_all _ _ _ Hwf).
      rewrite (Read_loop_Err _ _ _ _ _ (readRecord_EOF _ Heof)). reflexivity.
  - intros recs tail Hwf Hlt H0 H4. unfold Read, New.
    rewrite (Read_loop_encode_all _ _ _ Hwf).
    pose proof (readRecord_no_header tail Hlt) as Hread.
    apply Nat.eqb_neq in H0, H4. rewrite H0, H4 in Hread.
    rewrite (Read_loop_Err _ _ _ _ _ Hread). reflexivity.
  - intros recs tail Hwf Hlen Hshort. unfold Read, New.
    rewrite (Read_loop_encode_all _ _ _ Hwf).
    destruct (header_split tail ltac:(lia))
      as (t0 & t1 & t2 & t3 & l0 & l1 & l2 & l3 & rest & ->).
    rewrite length_field_header in Hshort.
    assert (Hrest : len rest < int32 (binary.Uint32 [l0; l1; l2; l3])).
    { unfold len. simpl length in Hshort. lia. }
    pose proof (readRecord_short t0 t1 t2 t3 l0 l1 l2 l3 rest Hrest) as Hread.
    destruct rest as [|b rest]; [simpl in Hlen; lia|].
    rewrite (Read_loop_Err _ _ _ _ _ Hread). reflexivity.
Qed.

Lemma Read_clean_iff_EOF_witness :
  Read (encode_all [newTLV 1 [x61]] ++ [x02; x00; x00; x00]) =
    Done (Ok [newTLV 1 [x61]]) /\
  Read (encode_all [newTLV 1 [x61]] ++ [x02; x00]) =
    Done (Err (Some [newTLV 1 [x61]]) ErrUnexpectedEOF) /\
  Read (encode_all [newTLV 1 [x61]] ++
        [x02; x00; x00; x00; x03; x00; x00; x00; x62]) =
    Done (Err (Some [newTLV 1 [x61]]) ErrTLVWrite).
Proof.
  assert (Hwf : Forall wire_record [newTLV 1 [x61]]).
  { repeat constructor; apply in_int32b_spec; reflexivity. }
  destruct Read_clean_iff_EOF as (Hclean & Hfield & Hvalue).
  split; [|split].
  - apply Hclean. split; [exact Hwf|].
    exists [x02; x00; x00; x00]. split; [reflexivity|].
    right. left. reflexivity.
  - apply (Hfield _ [x02; x00] Hwf); simpl; lia.
  - apply (Hvalue _ [x02; x00; x00; x00; x03; x00; x00; x00; x62] Hwf).
    + simpl. lia.
    + apply Z.ltb_lt. reflexivity.
Defined.

(** C4, as stated, fails: one whole record followed by a single byte makes
    [Read] return [io.ErrUnexpectedEOF] together with the list that holds
    the record decoded before the failure. *)
Lemma Read_error_keeps_decoded_record :
  Read [x01; x00; x00; x00; x02; x00; x00; x00; x61; x62; x01] =
  Done (Err (Some [ {| Tag := 1; Length := 2; Value := [x61; x62] |} ])
            ErrUnexpectedEOF).
Proof. reflexivity. Qed.

(** C4, amended. When [Read] meets an error other than [io.EOF] it returns
    that error together with the list built so far: the records decoded
    before the failure, in stream order.  It never returns an error with a
    nil list, and never returns [io.EOF]. *)
Theorem Read_error_returns_records (stream : list byte)
    (p : option TLVList) (e : error) :
  Read stream = Done (Err p e) <->
  e <> EOF /\
  exists (recs : TLVList) (tail r' : list byte) (q : option record),
    p = Some recs /\
    Forall wire_record recs /\
    stream = encode_all recs ++ tail /\
    readRecord tail = Done (Err q e, r').
Proof.
  unfold Read, New. split.
  - intros Hread.
    destruct (Read_loop_inv _ _ _ Hread)
      as (recs & tail & r' & q & e' & Hwf & Hr & Htail & Hres).
    destruct e'; simpl in Hres; inversion Hres; subst;
      (split; [discriminate|]); exists recs, tail, r', q; auto.
  - intros (Hne & recs & tail & r' & q & -> & Hwf & -> & Htail).
    rewrite (Read_loop_encode_all _ _ _ Hwf).
    rewrite (Read_loop_Err _ _ _ _ _ Htail).
    destruct e; try reflexivity. congruence.
Qed.

Lemma Read_error_returns_records_witness :
  ErrUnexpectedEOF <> EOF /\
  exists (recs : TLVList) (tail r' : list byte) (q : option record),
    Some [ {| Tag := 1; Length := 2; Value := [x61; x62] |} ] = Some recs /\
    Forall wire_record recs /\
    [x01; x00; x00; x00; x02; x00; x00; x00; x61; x62; x01] =
      encode_all recs ++ tail /\
    readRecord tail = Done (Err q ErrUnexpectedEOF, r').
Proof.
  apply (proj1 (Read_error_returns_records
                  [x01; x00; x00; x00; x02; x00; x00; x00; x61; x62; x01]
                  (Some [ {| Tag := 1; Length := 2; Value := [x61; x62] |} ])
                  ErrUnexpectedEOF)).
  reflexivity.
Defined.

(** * Short reads of the value *)

(** C5, as stated, fails: after a header that announces five value bytes
    and nothing more, no value byte is read, and [readRecord] fails with
    [io.EOF], the reader's error, not with [ErrTLVWrite]. *)
Lemma readRecord_short_value_EOF :
  readRecord [x01; x00; x00; x00; x05; x00; x00; x00] = Done (Err None EOF, []).
Proof. reflexivity. Qed.

(** C5, amended. When the stream holds fewer value bytes than the length
    field says, [readRecord] fails: with [ErrTLVWrite], returning beside it
    the record whose value is the bytes read padded with zeros, when at
    least one value byte was there; with the reader's [io.EOF] and no
    record when none was.  A record returned without error always took
    all the bytes of its value from the stream. *)
Theorem readRecord_short_value :
  (forall (t0 t1 t2 t3 l0 l1 l2 l3 : byte) (rest : list byte),
     let tag := int32 (binary.Uint32 [t0; t1; t2; t3]) in
     let length_ := int32 (binary.Uint32 [l0; l1; l2; l3]) in
     len rest < length_ ->
     readRecord (t0 :: t1 :: t2 :: t3 :: l0 :: l1 :: l2 :: l3 :: rest) =
     Done (match rest with
           | [] => Err None EOF
           | _ :: _ =>
               Err (Some {| Tag := tag; Length := length_;
                            Value := rest ++
                                     make (Z.to_nat length_ - length rest) |})
                   ErrTLVWrite
           end, [])) /\
  (forall (r r' : list byte) (tlv : record),
     readRecord r = Done (Ok tlv, r') ->
     exists header,
       length header = 8%nat /\
       r = header ++ Value tlv ++ r' /\
       len (Value tlv) = Length tlv).
Proof.
  split.
  - exact readRecord_short.
  - intros r r' tlv Hread.
    destruct (readRecord_Ok_inv _ _ _ Hread) as [(Hc & _ & _) Hr].
    exists (binary.PutUint32 (uint32 (int32 (Tag tlv))) ++
            binary.PutUint32 (uint32 (int32 (Length tlv)))).
    split; [reflexivity|]. split.
    + rewrite Hr at 1. unfold encode. rewrite <- !app_assoc. reflexivity.
    + symmetry. exact Hc.
Qed.

Lemma readRecord_short_value_witness :
  readRecord [x07; x00; x00; x00; x03; x00; x00; x00; x61] =
    Done (Err (Some {| Tag := 7; Length := 3; Value := [x61; x00; x00] |})
              ErrTLVWrite, []) /\
  exists header,
    length header = 8%nat /\
    [x07; x00; x00; x00; x01; x00; x00; x00; x61; x62] =
      header ++ [x61] ++ [x62] /\
    len [x61] = 1.
Proof.
  split.
  - apply (proj1 readRecord_short_value x07 x00 x00 x00 x03 x00 x00 x00 [x61]).
    apply Z.ltb_lt. reflexivity.
  - apply (proj2 readRecord_short_value
             [x07; x00; x00; x00; x01; x00; x00; x00; x61; x62] [x62]
             {| Tag := 7; Length := 1; Value := [x61] |}).
    reflexivity.
Defined.

(** * Negative length fields *)

(** C9 fails on the code: for the header [00 00 00 00 ff ff ff ff] the
    length field decodes to -1 and [make([]byte, -1)] panics; the panic
    reaches the callers of [tlvFromBytes] and [Read] as well. *)
Theorem readRecord_panics_on_negative_length :
  length_field [x00; x00; x00; x00; xff; xff; xff; xff] = -1 /\
  readRecord [x00; x00; x00; x00; xff; xff; xff; xff] = Panicked /\
  tlvFromBytes [x00; x00; x00; x00; xff; xff; xff; xff] = Panicked /\
  Read [x00; x00; x00; x00; xff; xff; xff; xff] = Panicked.
Proof. repeat split; reflexivity. Qed.

(** * The record list *)

(** [Get] on a list without the tag. *)
Lemma Get_no_match (recs : TLVList) (tag : Z) :
  (forall e, In e recs -> Tag e <> tag) ->
  Get recs tag = Err None ErrTagNotFound.
Proof.
  induction recs as [|e0 recs IH]; intros Hnone.
  - reflexivity.
  - cbn [Get].
    destruct (Z.eqb_spec (Tag e0) tag) as [Heq|_].
    + exfalso. apply (Hnone e0); [left; reflexivity|assumption].
    + apply IH. intros e Hin. apply Hnone. right. assumption.
Qed.

Lemma filter_no_match (recs : TLVList) (tag : Z) :
  (forall e, In e recs -> Tag e <> tag) ->
  filter (fun e => Tag e =? tag) recs = [].
Proof.
  induction recs as [|e rest IH]; intros Hnone; simpl; [reflexivity|].
  destruct (Z.eqb_spec (Tag e) tag) as [Heq|_].
  - exfalso. apply (Hnone e); [left; reflexivity|exact Heq].
  - apply IH. intros e' He'. apply Hnone. right. exact He'.
Qed.

(** C6. [Get] returns the first record, in list order, whose tag matches,
    when there is one, and fails with [ErrTagNotFound] when no record has
    the tag; on a list with tags [T1, T2, T1] it returns the record at
    index 0. *)
Theorem Get_first_match :
  (forall (recs : TLVList) (tag : Z),
     (exists e, In e recs /\ Tag e = tag) ->
     exists (i : nat) (e : record),
       nth_error recs i = Some e /\ Tag e = tag /\
       (forall (j : nat) (e' : record),
          (j < i)%nat -> nth_error recs j = Some e' -> Tag e' <> tag) /\
       Get recs tag = Ok e) /\
  (forall (recs : TLVList) (tag : Z),
     (forall e, In e recs -> Tag e <> tag) ->
     Get recs tag = Err None ErrTagNotFound) /\
  (forall (r0 r1 r2 : record) (T1 T2 : Z),
     Tag r0 = T1 -> Tag r1 = T2 -> Tag r2 = T1 ->
     nth_error [r0; r1; r2] 0 = Some r0 /\ Get [r0; r1; r2] T1 = Ok r0).
Proof.
  split; [|split].
  - intros recs tag. induction recs as [|e0 recs IH]; intros (e & Hin & He).
    + destruct Hin.
    + cbn [Get]. destruct (Tag e0 =? tag) eqn:H0.
      * apply Z.eqb_eq in H0. exists 0%nat, e0.
        repeat split; try assumption. intros j e' Hj. lia.
      * apply Z.eqb_neq in H0.
        destruct Hin as [->|Hin]; [contradiction|].
        destruct IH as (i & e1 & Hnth & Htag & Hbefore & Hget);
          [exists e; auto|].
        exists (S i), e1. repeat split; try assumption.
        intros [|j] e' Hj Hnth'; simpl in Hnth'.
        -- inversion Hnth'; subst. exact H0.
        -- apply (Hbefore j e'); [lia|assumption].
  - exact Get_no_match.
  - intros r0 r1 r2 T1 T2 H0 _ _. split; [reflexivity|].
    cbn [Get]. rewrite H0, Z.eqb_refl. reflexivity.
Qed.

Lemma Get_first_match_witness :
  Get [newTLV 1 [x61]; newTLV 2 [x62]; newTLV 1 [x63]] 1 = Ok (newTLV 1 [x61]) /\
  Get [newTLV 1 [x61]; newTLV 2 [x62]; newTLV 1 [x63]] 3 =
    Err None ErrTagNotFound.
Proof.
  destruct Get_first_match as (_ & Hnone & Hfirst).
  split.
  - apply (Hfirst (newTLV 1 [x61]) (newTLV 2 [x62]) (newTLV 1 [x63]) 1 2);
      reflexivity.
  - apply Hnone. intros e [<-|[<-|[<-|[]]]]; discriminate.
Defined.

(** One scan of [Remove]: it unlinks at most one record, a matching one,
    and none only when no record matches. *)
Lemma remove_scan_spec (matches : record -> bool) (recs recs' : TLVList)
    (removed : Z) :
  remove_scan matches recs = (recs', removed) ->
  filter (fun e => negb (matches e)) recs' = filter (fun e => negb (matches e)) recs /\
  Z.of_nat (length (filter matches recs)) =
    removed + Z.of_nat (length (filter matches recs')) /\
  (removed = 0 -> recs' = recs /\ filter matches recs = []).
Proof.
  revert recs' removed.
  induction recs as [|e rest IH]; intros recs' removed Hscan; simpl in Hscan.
  - inversion Hscan; subst. auto.
  - simpl. destruct (matches e) eqn:He; simpl.
    + inversion Hscan; subst. split; [reflexivity|]. split; [lia|]. discriminate.
    + destruct (remove_scan matches rest) as [rest' k] eqn:Hrest.
      inversion Hscan; subst.
      destruct (IH rest' removed eq_refl) as (Hkeep & Hcount & Hzero).
      simpl. rewrite He. simpl.
      split; [congruence|]. split; [exact Hcount|].
      intros Hz. destruct (Hzero Hz) as [-> Hnone]. auto.
Qed.

Lemma filter_none_keeps_all (matches : record -> bool) (recs : TLVList) :
  filter matches recs = [] -> filter (fun e => negb (matches e)) recs = recs.
Proof.
  induction recs as [|e rest IH]; simpl; [reflexivity|].
  destruct (matches e); simpl; [discriminate|].
  intros H. f_equal. apply IH, H.
Qed.

(** The loop of [Remove] and [RemoveRecord] keeps the records that do not
    match, in their order, and counts the others. *)
Lemma remove_loop_spec (matches : record -> bool) (recs : TLVList)
    (totalRemoved : Z) :
  remove_loop matches recs totalRemoved =
  (filter (fun e => negb (matches e)) recs,
   totalRemoved + Z.of_nat (length (filter matches recs))).
Proof.
  funelim (remove_loop matches recs totalRemoved).
  - destruct (remove_scan_spec _ _ _ _ Hscan) as (_ & _ & Hzero).
    match goal with
    | H : (removed =? 0) = true |- _ =>
        destruct (Hzero (proj1 (Z.eqb_eq _ _) H)) as [-> Hnone]
    end.
    rewrite Hnone, (filter_none_keeps_all _ _ Hnone). simpl. f_equal. lia.
  - destruct (remove_scan_spec _ _ _ _ Hscan) as (Hkeep & Hcount & _).
    match goal with IH : remove_loop _ _ _ = (_, _) |- _ => rewrite IH end.
    rewrite Hkeep. f_equal. lia.
Qed.

(** [GetAll] gives the matching records in list order. *)
Lemma GetAll_loop_filter (recs : TLVList) (tag : Z) (ts : list record) :
  GetAll_loop recs tag ts = ts ++ filter (fun e => Tag e =? tag) recs.
Proof.
  revert ts. induction recs as [|e rest IH]; intros ts; simpl.
  - rewrite app_nil_r. reflexivity.
  - destruct (Tag e =? tag); rewrite IH; [rewrite <- app_assoc|]; reflexivity.
Qed.

Lemma GetAll_filter (recs : TLVList) (tag : Z) :
  GetAll recs tag = filter (fun e => Tag e =? tag) recs.
Proof. unfold GetAll. apply GetAll_loop_filter. Qed.

(** [RemoveRecord] keeps the records that are not [Equals] to the given
    one and counts the others. *)
Lemma RemoveRecord_filter (recs : TLVList) (rec : TLV) :
  RemoveRecord recs rec =
  (filter (fun e => negb (Equals (Some e) rec)) recs,
   Z.of_nat (length (filter (fun e => Equals (Some e) rec) recs))).
Proof. unfold RemoveRecord. rewrite remove_loop_spec. reflexivity. Qed.

Lemma filter_split_length (matches : record -> bool) (recs : TLVList) :
  (length (filter (fun e => negb (matches e)) recs) +
   length (filter matches recs) = length recs)%nat.
Proof.
  induction recs as [|e rest IH]; simpl; [reflexivity|].
  destruct (matches e); simpl; lia.
Qed.

(** C7. [Remove] unlinks every record whose tag matches, wherever it is in
    the list, and keeps the other records in their order: the list left
    is the list filtered by "the tag differs".  The count returned is the
    number of matching records, so the list shrinks by it; when no record
    matches the list is unchanged and the count is 0, an ordinary
    return.  Afterwards [Get] of that tag fails with [ErrTagNotFound]. *)
Theorem Remove_removes_all (recs : TLVList) (tag : Z) :
  Remove recs tag =
    (filter (fun e => negb (Tag e =? tag)) recs,
     Z.of_nat (length (filter (fun e => Tag e =? tag) recs))) /\
  (forall e, In e (fst (Remove recs tag)) <-> In e recs /\ Tag e <> tag) /\
  TLVList_Length (fst (Remove recs tag)) =
    TLVList_Length recs - snd (Remove recs tag) /\
  ((forall e, In e recs -> Tag e <> tag) -> Remove recs tag = (recs, 0)) /\
  Get (fst (Remove recs tag)) tag = Err None ErrTagNotFound.
Proof.
  assert (Hrm : Remove recs tag =
    (filter (fun e => negb (Tag e =? tag)) recs,
     Z.of_nat (length (filter (fun e => Tag e =? tag) recs)))).
  { unfold Remove. rewrite remove_loop_spec. reflexivity. }
  assert (Hin : forall e, In e (fst (Remove recs tag)) <-> In e recs /\ Tag e <> tag).
  { intros e. rewrite Hrm. cbn [fst]. rewrite filter_In, negb_true_iff, Z.eqb_neq.
    reflexivity. }
  split; [exact Hrm|]. split; [exact Hin|]. split; [|split].
  - rewrite Hrm. cbn [fst snd]. unfold TLVList_Length.
    pose proof (filter_split_length (fun e => Tag e =? tag) recs). lia.
  - intros Hnone. rewrite Hrm.
    pose proof (filter_no_match recs tag Hnone) as Hempty.
    rewrite Hempty, (filter_none_keeps_all _ _ Hempty). reflexivity.
  - apply Get_no_match. intros e He. apply Hin in He. apply He.
Qed.

Lemma Remove_removes_all_witness :
  Remove [newTLV 1 [x61]; newTLV 2 [x62]; newTLV 1 [x63]] 1 =
    ([newTLV 2 [x62]], 2) /\
  Remove [newTLV 1 [x61]; newTLV 2 [x62]; newTLV 1 [x63]] 3 =
    ([newTLV 1 [x61]; newTLV 2 [x62]; newTLV 1 [x63]], 0) /\
  Get (fst (Remove [newTLV 1 [x61]; newTLV 2 [x62]; newTLV 1 [x63]] 1)) 1 =
    Err None ErrTagNotFound.
Proof.
  split; [|split].
  - exact (proj1 (Remove_removes_all
                    [newTLV 1 [x61]; newTLV 2 [x62]; newTLV 1 [x63]] 1)).
  - apply (Remove_removes_all
             [newTLV 1 [x61]; newTLV 2 [x62]; newTLV 1 [x63]] 3).
    intros e [<-|[<-|[<-|[]]]]; discriminate.
  - apply (Remove_removes_all
             [newTLV 1 [x61]; newTLV 2 [x62]; newTLV 1 [x63]] 1).
Defined.

(** * Tags outside the 32-bit range *)

(** C10. For a record whose tag lies outside the signed 32-bit range,
    [writeRecord] writes the low 32 bits of the tag, little endian;
    decoding gives the record with the tag [int32(tag)], which is in
    range and so differs from the original: the two records are not
    [Equals].  Conversely, whenever encoding a record and decoding the
    result gives an [Equals] record, its tag and length fit in 32 bits. *)
Theorem tag_truncated_to_32_bits :
  (forall (tag : Z) (value : list byte),
     ~ in_int32 tag -> in_int32 (len value) ->
     exists (stream : list byte) (R' : record),
       writeRecord (newTLV tag value) [] = (None, stream) /\
       firstn 4 stream = binary.PutUint32 (tag mod 2 ^ 32) /\
       readRecord stream = Done (Ok R', []) /\
       Tag R' = int32 tag /\ in_int32 (Tag R') /\ Tag R' <> tag /\
       Length R' = len value /\ Value R' = value /\
       Equals (Some (newTLV tag value)) (Some R') = false) /\
  (forall (R R' : record) (stream rest : list byte),
     consistent R ->
     writeRecord R [] = (None, stream) ->
     readRecord stream = Done (Ok R', rest) ->
     Equals (Some R) (Some R') = true ->
     in_int32 (Tag R) /\ in_int32 (Length R)).
Proof.
  split.
  - intros tag value Htag Hlen.
    pose proof (newTLV_consistent tag value) as Hc.
    pose proof (readRecord_encode (newTLV tag value) [] Hc) as Hread.
    rewrite (writeRecord_consistent _ _ Hc).
    rewrite newTLV_fields in *. rewrite app_nil_r in Hread.
    cbn [Tag Length Value] in Hread.
    assert (Hne : int32 tag <> tag).
    { intros Heq. apply Htag. apply int32_fixpoint_iff. exact Heq. }
    eexists. eexists.
    split; [reflexivity|].
    split; [unfold encode; cbn [Tag Length Value app binary.PutUint32 firstn];
            rewrite uint32_int32; reflexivity|].
    split; [apply Hread; exact Hlen|].
    cbn [Tag Length Value].
    split; [reflexivity|]. split; [apply int32_in_range|].
    split; [exact Hne|]. split; [reflexivity|]. split; [reflexivity|].
    unfold Equals. cbn [Tag].
    replace (tag =? int32 tag) with false; [reflexivity|].
    symmetry. apply Z.eqb_neq. congruence.
  - intros R R' stream rest Hc Hwrite Hread Heq.
    destruct (readRecord_Ok_inv _ _ _ Hread) as [(_ & Ht & Hl) _].
    apply Equals_records in Heq. destruct Heq as (Htag & Hlen & _).
    rewrite Htag, Hlen. split; assumption.
Qed.

Lemma tag_truncated_to_32_bits_witness :
  ~ in_int32 (2 ^ 32 + 5) /\ in_int32 (len [x61]) /\
  exists (stream : list byte) (R' : record),
    writeRecord (newTLV (2 ^ 32 + 5) [x61]) [] = (None, stream) /\
    firstn 4 stream = binary.PutUint32 ((2 ^ 32 + 5) mod 2 ^ 32) /\
    readRecord stream = Done (Ok R', []) /\
    Tag R' = int32 (2 ^ 32 + 5) /\ in_int32 (Tag R') /\
    Tag R' <> 2 ^ 32 + 5 /\
    Length R' = len [x61] /\ Value R' = [x61] /\
    Equals (Some (newTLV (2 ^ 32 + 5) [x61])) (Some R') = false.
Proof.
  assert (Hout : ~ in_int32 (2 ^ 32 + 5)).
  { intros H. apply in_int32b_spec in H. discriminate H. }
  assert (Hlen : in_int32 (len [x61])).
  { apply in_int32b_spec. reflexivity. }
  split; [exact Hout|]. split; [exact Hlen|].
  exact (proj1 tag_truncated_to_32_bits (2 ^ 32 + 5) [x61] Hout Hlen).
Defined.

(** * The value of a record is the record's own *)

Lemma array_at_old (h h1 : Heap.store) (a : nat) :
  (a < length h)%nat -> Heap.array_at (h ++ h1) a = Heap.array_at h a.
Proof. intros Ha. unfold Heap.array_at. apply app_nth1. exact Ha. Qed.

Lemma array_at_new (h : Heap.store) (bs : list byte) :
  Heap.array_at (h ++ [bs]) (length h) = bs.
Proof. unfold Heap.array_at. apply nth_middle. Qed.

Lemma set_array_new (h : Heap.store) (bs bs' : list byte) :
  Heap.set_array (h ++ [bs]) (length h) bs' = h ++ [bs'].
Proof.
  unfold Heap.set_array.
  rewrite firstn_app, firstn_all, Nat.sub_diag, firstn_O, app_nil_r.
  rewrite skipn_all2 by (rewrite length_app; simpl; lia).
  reflexivity.
Qed.

Lemma length_set_array (h : Heap.store) (a : nat) (bs : list byte) :
  (a < length h)%nat -> length (Heap.set_array h a bs) = length h.
Proof.
  intros Ha. unfold Heap.set_array.
  rewrite length_app, length_firstn. cbn [length].
  rewrite length_skipn. lia.
Qed.

(** Replacing one array leaves the others as they are. *)
Lemma array_at_set_array_other (h : Heap.store) (a a' : nat) (bs : list byte) :
  (a < length h)%nat -> a' <> a ->
  Heap.array_at (Heap.set_array h a bs) a' = Heap.array_at h a'.
Proof.
  intros Ha Hne. unfold Heap.array_at, Heap.set_array.
  destruct (Nat.lt_ge_cases a' a) as [Hlt|Hge].
  - rewrite app_nth1 by (rewrite length_firstn; lia).
    rewrite nth_firstn.
    destruct (Nat.ltb_spec a' a); [reflexivity|lia].
  - rewrite app_nth2 by (rewrite length_firstn; lia).
    rewrite length_firstn, Nat.min_l by lia.
    destruct (a' - a)%nat as [|k] eqn:Hk; [lia|].
    cbn [nth]. rewrite nth_skipn. f_equal. lia.
Qed.

Lemma length_bytes (h : Heap.store) (s : Heap.slice) :
  Heap.valid h s -> length (Heap.bytes h s) = Heap.slen s.
Proof.
  intros [_ Hfit]. unfold Heap.bytes.
  rewrite length_firstn, length_skipn. lia.
Qed.

(** [Heap.newTLV] adds one array to the store, a copy of the bytes of the
    caller's slice, and the record's value is the slice over it. *)
Lemma Heap_newTLV_store (h : Heap.store) (tag : Z) (s : Heap.slice) :
  Heap.valid h s ->
  Heap.newTLV h tag s =
  (h ++ [Heap.bytes h s],
   {| Heap.tag := tag;
      Heap.length_ := Z.of_nat (Heap.slen s);
      Heap.value := {| Heap.array := length h; Heap.offset := 0;
                       Heap.slen := Heap.slen s |} |}).
Proof.
  intros Hv. pose proof (length_bytes h s Hv) as Hlen.
  destruct Hv as [Harr _].
  unfold Heap.newTLV, Heap.make, Heap.copy. cbn [Heap.array Heap.offset Heap.slen].
  rewrite Nat.min_id, array_at_new, set_array_new.
  assert (Hsame : Heap.bytes (h ++ [repeat x00 (Heap.slen s)]) s = Heap.bytes h s).
  { unfold Heap.bytes. rewrite array_at_old by exact Harr. reflexivity. }
  rewrite Hsame. rewrite (firstn_all2 (Heap.bytes h s)) by lia.
  cbn [firstn Nat.add app].
  rewrite skipn_all2 by (rewrite repeat_length; lia).
  rewrite app_nil_r. reflexivity.
Qed.

(** A write through a slice over another array does not change what a
    slice reads. *)
Lemma bytes_store_byte_other (h h' : Heap.store) (s s' : Heap.slice)
    (i : nat) (b : byte) :
  (Heap.array s' < length h)%nat ->
  Heap.array s <> Heap.array s' ->
  Heap.store_byte h s' i b = Done h' ->
  Heap.bytes h' s = Heap.bytes h s /\ length h' = length h.
Proof.
  intros Harr Hne Hstore. unfold Heap.store_byte in Hstore.
  destruct (i <? Heap.slen s')%nat; [|discriminate].
  inversion Hstore; subst h'; clear Hstore. split.
  - unfold Heap.bytes. rewrite array_at_set_array_other by assumption.
    reflexivity.
  - apply length_set_array. exact Harr.
Qed.

(** C8. A record made by [newTLV] has the tag it was given, the bytes of
    the value it was given, and their number as its length.  Its value
    lives in a new array of the store: the record reads the bytes the
    caller's slice held at the call, and no later write through a slice
    that existed before the call, the caller's included, changes what the
    record reads.  Every record that [readRecord] returns without error
    has the length of its value as its length too. *)
Theorem newTLV_length_and_own_value :
  (forall (tag : Z) (value : list byte),
     Tag (newTLV tag value) = tag /\
     Length (newTLV tag value) = len (Value (newTLV tag value)) /\
     Value (newTLV tag value) = value) /\
  (forall (h : Heap.store) (tag : Z) (s : Heap.slice),
     Heap.valid h s ->
     let h' := fst (Heap.newTLV h tag s) in
     let t := snd (Heap.newTLV h tag s) in
     Heap.load h' t = newTLV tag (Heap.bytes h s) /\
     Heap.array (Heap.value t) = length h /\
     (forall a, (a < length h)%nat -> Heap.array_at h' a = Heap.array_at h a) /\
     (forall (h1 h2 : Heap.store) (s' : Heap.slice) (i : nat) (b : byte),
        (Heap.array s' < length h)%nat -> (length h < length h1)%nat ->
        Heap.store_byte h1 s' i b = Done h2 ->
        Heap.load h2 t = Heap.load h1 t /\ length h2 = length h1)) /\
  (forall (r r' : list byte) (tlv : record),
     readRecord r = Done (Ok tlv, r') -> Length tlv = len (Value tlv)).
Proof.
  split; [|split].
  - intros tag value. rewrite newTLV_fields. auto.
  - intros h tag s Hv. rewrite (Heap_newTLV_store h tag s Hv). cbv zeta.
    cbn [fst snd]. split; [|split; [|split]].
    + pose proof (length_bytes h s Hv) as Hlen.
      rewrite newTLV_fields. unfold len. rewrite Hlen.
      unfold Heap.load. cbn [Heap.tag Heap.length_ Heap.value]. f_equal.
      unfold Heap.bytes at 1. cbn [Heap.array Heap.offset Heap.slen].
      rewrite array_at_new, skipn_O. apply firstn_all2. lia.
    + reflexivity.
    + intros a Ha. apply array_at_old. exact Ha.
    + intros h1 h2 s' i b Hs' Hh1 Hstore.
      destruct (bytes_store_byte_other h1 h2
                  {| Heap.array := length h; Heap.offset := 0;
                     Heap.slen := Heap.slen s |} s' i b) as [Hb Hl];
        [lia | cbn [Heap.array]; lia | exact Hstore |].
      split; [|exact Hl].
      unfold Heap.load. cbn [Heap.tag Heap.length_ Heap.value].
      rewrite Hb. reflexivity.
  - intros r r' tlv Hread.
    destruct (readRecord_Ok_inv _ _ _ Hread) as [(Hc & _) _]. exact Hc.
Qed.

Lemma newTLV_length_and_own_value_witness :
  Heap.valid [[x61; x62; x63]] (Heap.mkSlice 0 1 2) /\
  Heap.load (fst (Heap.newTLV [[x61; x62; x63]] 7 (Heap.mkSlice 0 1 2)))
            (snd (Heap.newTLV [[x61; x62; x63]] 7 (Heap.mkSlice 0 1 2))) =
    newTLV 7 [x62; x63] /\
  Heap.store_byte (fst (Heap.newTLV [[x61; x62; x63]] 7 (Heap.mkSlice 0 1 2)))
                  (Heap.mkSlice 0 1 2) 0 xff =
    Done [[x61; xff; x63]; [x62; x63]] /\
  Heap.load [[x61; xff; x63]; [x62; x63]]
            (snd (Heap.newTLV [[x61; x62; x63]] 7 (Heap.mkSlice 0 1 2))) =
    newTLV 7 [x62; x63] /\
  Length {| Tag := 7; Length := 1; Value := [x61] |} =
    len (Value {| Tag := 7; Length := 1; Value := [x61] |}).
Proof.
  assert (Hv : Heap.valid [[x61; x62; x63]] (Heap.mkSlice 0 1 2)).
  { split; simpl; lia. }
  destruct newTLV_length_and_own_value as (_ & Hheap & Hread).
  destruct (Hheap [[x61; x62; x63]] 7 (Heap.mkSlice 0 1 2) Hv)
    as (Hload & _ & _ & Hframe).
  split; [exact Hv|]. split; [exact Hload|]. split; [reflexivity|]. split.
  - refine (eq_trans (proj1 (Hframe _ [[x61; xff; x63]; [x62; x63]]
                                 (Heap.mkSlice 0 1 2) 0%nat xff _ _ _)) Hload);
      [simpl; lia | simpl; lia | reflexivity].
  - apply (Hread [x07; x00; x00; x00; x01; x00; x00; x00; x61] []).
    reflexivity.
Defined.

(** * Further properties: equality *)

(** X1. [Equals] decides whether two [TLV] values are the same: it is true
    exactly when both are nil or both are records with the same tag, the
    same length and the same value bytes.  So it is reflexive, symmetric
    and transitive, and a nil value equals only nil. *)
Theorem Equals_decides_equality :
  (forall a b : TLV, Equals a b = true <-> a = b) /\
  (forall a : TLV, Equals a a = true) /\
  (forall a b : TLV, Equals a b = Equals b a) /\
  (forall a b c : TLV,
     Equals a b = true -> Equals b c = true -> Equals a c = true) /\
  (forall t : record, Equals None (Some t) = false /\ Equals (Some t) None = false).
Proof.
  assert (Hdec : forall a b : TLV, Equals a b = true <-> a = b).
  { intros [t1|] [t2|]; try (simpl; split; [discriminate|discriminate]).
    - rewrite Equals_records. split.
      + intros (Ht & Hl & Hv). destruct t1, t2; simpl in *; subst. reflexivity.
      + intros H. inversion H; subst. auto.
    - simpl. split; reflexivity. }
  split; [exact Hdec|]. split; [|split; [|split]].
  - intros a. apply Hdec. reflexivity.
  - intros a b.
    destruct (Equals a b) eqn:Hab; destruct (Equals b a) eqn:Hba; try reflexivity.
    + apply Hdec in Hab. subst b. rewrite (proj2 (Hdec a a) eq_refl) in Hba.
      discriminate.
    + apply Hdec in Hba. subst b. rewrite (proj2 (Hdec a a) eq_refl) in Hab.
      discriminate.
  - intros a b c Hab Hbc. apply Hdec in Hab, Hbc. apply Hdec. congruence.
  - intros t. split; reflexivity.
Qed.

Lemma Equals_decides_equality_witness :
  Equals (Some (newTLV 1 [x61])) (Some (newTLV 1 [x61])) = true /\
  Some (newTLV 1 [x61]) <> Some (newTLV 1 [x62]) /\
  Equals (Some (newTLV 1 [x61])) (Some (newTLV 1 [x62])) = false.
Proof.
  destruct Equals_decides_equality as (Hdec & _).
  split; [apply Hdec; reflexivity|].
  split; [discriminate|].
  destruct (Equals (Some (newTLV 1 [x61])) (Some (newTLV 1 [x62]))) eqn:H;
    [|reflexivity].
  apply Hdec in H. discriminate H.
Defined.

(** * Further properties: queries on the list *)

(** [Get] is the head of the matching records. *)
Lemma Get_head_filter (recs : TLVList) (tag : Z) :
  Get recs tag =
  match filter (fun e => Tag e =? tag) recs with
  | [] => Err None ErrTagNotFound
  | e :: _ => Ok e
  end.
Proof.
  induction recs as [|e0 rest IH]; simpl; [reflexivity|].
  destruct (Tag e0 =? tag); [reflexivity|exact IH].
Qed.

(** Filtering with a test that keeps every record of a tag does not
    change the records of that tag. *)
Lemma filter_tag_frame (keep : record -> bool) (recs : TLVList) (tag : Z) :
  (forall e, In e recs -> Tag e = tag -> keep e = true) ->
  filter (fun e => Tag e =? tag) (filter keep recs) =
  filter (fun e => Tag e =? tag) recs.
Proof.
  induction recs as [|e0 rest IH]; intros Hkeep; simpl; [reflexivity|].
  assert (IH' := IH (fun e He => Hkeep e (or_intror He))).
  destruct (keep e0) eqn:Hk; simpl.
  - rewrite IH'. reflexivity.
  - destruct (Z.eqb_spec (Tag e0) tag) as [Heq|_]; [|exact IH'].
    rewrite (Hkeep e0 (or_introl eq_refl) Heq) in Hk. discriminate.
Qed.

(** X2. [GetAll] returns exactly the records whose tag matches, in list
    order: a record is in the result exactly when it is in the list with
    that tag, and the result is empty when no record has the tag.  As many
    records are returned as [Remove] of that tag removes. *)
Theorem GetAll_exact (recs : TLVList) (tag : Z) :
  GetAll recs tag = filter (fun e => Tag e =? tag) recs /\
  (forall e, In e (GetAll recs tag) <-> In e recs /\ Tag e = tag) /\
  (GetAll recs tag = [] <-> forall e, In e recs -> Tag e <> tag) /\
  Z.of_nat (length (GetAll recs tag)) = snd (Remove recs tag).
Proof.
  rewrite GetAll_filter. split; [reflexivity|]. split; [|split].
  - intros e. rewrite filter_In, Z.eqb_eq. reflexivity.
  - split.
    + intros Hnil e Hin Htag.
      assert (Hf : In e (filter (fun e => Tag e =? tag) recs)).
      { apply filter_In. split; [exact Hin|]. apply Z.eqb_eq. exact Htag. }
      rewrite Hnil in Hf. destruct Hf.
    + apply filter_no_match.
  - unfold Remove. rewrite remove_loop_spec. reflexivity.
Qed.

(** X3. [Get] and [GetAll] agree: [Get] succeeds exactly when [GetAll] is
    not empty, and then returns its first record; [Get] fails, with
    [ErrTagNotFound] and a nil record, exactly when [GetAll] is empty.
    [Get] has no other result. *)
Theorem Get_is_first_of_GetAll (recs : TLVList) (tag : Z) :
  (forall e, Get recs tag = Ok e <-> hd_error (GetAll recs tag) = Some e) /\
  (Get recs tag = Err None ErrTagNotFound <-> GetAll recs tag = []) /\
  (forall p err, Get recs tag = Err p err -> p = None /\ err = ErrTagNotFound) /\
  (forall e, Get recs tag = Ok e -> In e recs /\ Tag e = tag).
Proof.
  rewrite GetAll_filter, Get_head_filter.
  destruct (filter (fun e => Tag e =? tag) recs) as [|e0 l] eqn:Hf.
  - split; [|split; [|split]].
    + intros e. simpl. split; discriminate.
    + split; reflexivity.
    + intros p err H. inversion H. split; reflexivity.
    + discriminate.
  - assert (Hin : In e0 recs /\ Tag e0 = tag).
    { assert (H0 : In e0 (filter (fun e => Tag e =? tag) recs))
        by (rewrite Hf; left; reflexivity).
      apply filter_In in H0. rewrite Z.eqb_eq in H0. exact H0. }
    split; [|split; [|split]].
    + intros e. simpl. split; intros H; inversion H; reflexivity.
    + split; discriminate.
    + discriminate.
    + intros e H. inversion H; subst. exact Hin.
Qed.

(** * Further properties: removing and adding *)

Lemma Equals_Some_true_iff (e : record) (rec : TLV) :
  Equals (Some e) rec = true <-> rec = Some e.
Proof.
  destruct rec as [r|]; [|simpl; split; discriminate].
  rewrite Equals_records. split.
  - intros (Ht & Hl & Hv). destruct e, r; simpl in *; subst. reflexivity.
  - intros H. inversion H; subst. auto.
Qed.

(** X4. [RemoveRecord] unlinks exactly the records that are [Equals] to the
    given one (same tag, same length, same bytes) and keeps the others in
    their order; the count is the number of records unlinked, so the list
    shrinks by it.  A record with the same tag and another value stays,
    and so does every record when the argument is nil.  Afterwards no
    record of the list is [Equals] to the argument. *)
Theorem RemoveRecord_exact (recs : TLVList) (rec : TLV) :
  RemoveRecord recs rec =
    (filter (fun e => negb (Equals (Some e) rec)) recs,
     Z.of_nat (length (filter (fun e => Equals (Some e) rec) recs))) /\
  (forall e, In e (fst (RemoveRecord recs rec)) <-> In e recs /\ rec <> Some e) /\
  TLVList_Length (fst (RemoveRecord recs rec)) =
    TLVList_Length recs - snd (RemoveRecord recs rec) /\
  (rec = None -> RemoveRecord recs rec = (recs, 0)) /\
  RemoveRecord (fst (RemoveRecord recs rec)) rec =
    (fst (RemoveRecord recs rec), 0).
Proof.
  assert (Hin : forall l e,
            In e (filter (fun e => negb (Equals (Some e) rec)) l) <->
            In e l /\ rec <> Some e).
  { intros l e. rewrite filter_In, negb_true_iff.
    rewrite <- Equals_Some_true_iff.
    destruct (Equals (Some e) rec); split; intros [H1 H2];
      (split; [exact H1|]); congruence. }
  assert (Hgone : forall l,
            (forall e, In e l -> rec <> Some e) ->
            filter (fun e => Equals (Some e) rec) l = []).
  { induction l as [|e l IH]; intros Hl; cbn [filter]; [reflexivity|].
    destruct (Equals (Some e) rec) eqn:He.
    - apply Equals_Some_true_iff in He. exfalso.
      apply (Hl e); [left; reflexivity|exact He].
    - apply IH. intros e' He'. apply Hl. right. exact He'. }
  rewrite !RemoveRecord_filter. cbn [fst snd].
  split; [reflexivity|]. split; [apply Hin|]. split; [|split].
  - unfold TLVList_Length.
    pose proof (filter_split_length (fun e => Equals (Some e) rec) recs). lia.
  - intros ->.
    rewrite (Hgone recs) by discriminate.
    rewrite (filter_none_keeps_all (fun e => Equals (Some e) None) recs)
      by (apply Hgone; discriminate).
    reflexivity.
  - assert (Hnone : filter (fun e => Equals (Some e) rec)
                      (filter (fun e => negb (Equals (Some e) rec)) recs) = []).
    { apply Hgone. intros e He. apply Hin in He. apply He. }
    rewrite Hnone, (filter_none_keeps_all _ _ Hnone). reflexivity.
Qed.

Lemma RemoveRecord_exact_witness :
  RemoveRecord [newTLV 1 [x61]; newTLV 1 [x62]; newTLV 1 [x61]]
               (Some (newTLV 1 [x61])) = ([newTLV 1 [x62]], 2) /\
  RemoveRecord [newTLV 1 [x61]; newTLV 1 [x62]] None =
    ([newTLV 1 [x61]; newTLV 1 [x62]], 0).
Proof.
  split.
  - exact (proj1 (RemoveRecord_exact
                    [newTLV 1 [x61]; newTLV 1 [x62]; newTLV 1 [x61]]
                    (Some (newTLV 1 [x61])))).
  - exact (proj1 (proj2 (proj2 (proj2
             (RemoveRecord_exact [newTLV 1 [x61]; newTLV 1 [x62]] None))))
             eq_refl).
Defined.

(** X5. [Remove] of one tag leaves the records of every other tag as they
    are: for another tag, [Get] and [GetAll] give the same results after
    the removal as before. *)
Theorem Remove_keeps_other_tags (recs : TLVList) (tag tag' : Z) :
  tag' <> tag ->
  Get (fst (Remove recs tag)) tag' = Get recs tag' /\
  GetAll (fst (Remove recs tag)) tag' = GetAll recs tag'.
Proof.
  intros Hne. unfold Remove. rewrite remove_loop_spec. cbn [fst].
  rewrite !GetAll_filter, !Get_head_filter.
  assert (Hframe : filter (fun e => Tag e =? tag')
                     (filter (fun e => negb (Tag e =? tag)) recs) =
                   filter (fun e => Tag e =? tag') recs).
  { apply filter_tag_frame. intros e _ He.
    apply negb_true_iff, Z.eqb_neq. congruence. }
  rewrite Hframe. split; reflexivity.
Qed.

Lemma Remove_keeps_other_tags_witness :
  2 <> 1 /\
  Get (fst (Remove [newTLV 1 [x61]; newTLV 2 [x62]; newTLV 1 [x63]] 1)) 2 =
    Get [newTLV 1 [x61]; newTLV 2 [x62]; newTLV 1 [x63]] 2 /\
  GetAll (fst (Remove [newTLV 1 [x61]; newTLV 2 [x62]; newTLV 1 [x63]] 1)) 2 =
    GetAll [newTLV 1 [x61]; newTLV 2 [x62]; newTLV 1 [x63]] 2.
Proof.
  assert (H : 2 <> 1) by discriminate.
  split; [exact H|].
  exact (Remove_keeps_other_tags
           [newTLV 1 [x61]; newTLV 2 [x62]; newTLV 1 [x63]] 1 2 H).
Defined.

Lemma filter_swap (f g : record -> bool) (recs : TLVList) :
  filter f (filter g recs) = filter g (filter f recs).
Proof.
  induction recs as [|e rest IH]; simpl; [reflexivity|].
  destruct (f e) eqn:Hf; destruct (g e) eqn:Hg; simpl;
    rewrite ?Hf, ?Hg, IH; reflexivity.
Qed.

(** X6. Removing a tag twice removes nothing the second time, and the
    order in which two tags are removed does not matter: the list left is
    the same, and the count for each tag is the count it has on the
    original list. *)
Theorem Remove_twice_and_in_any_order (recs : TLVList) (t1 t2 : Z) :
  Remove (fst (Remove recs t1)) t1 = (fst (Remove recs t1), 0) /\
  fst (Remove (fst (Remove recs t1)) t2) =
    fst (Remove (fst (Remove recs t2)) t1) /\
  (t1 <> t2 ->
   snd (Remove (fst (Remove recs t1)) t2) = snd (Remove recs t2)).
Proof.
  unfold Remove. rewrite !remove_loop_spec. cbn [fst snd].
  split; [|split].
  - assert (Hnone : filter (fun e => Tag e =? t1)
                      (filter (fun e => negb (Tag e =? t1)) recs) = []).
    { apply filter_no_match. intros e He. apply filter_In in He.
      destruct He as [_ He]. apply negb_true_iff, Z.eqb_neq in He. exact He. }
    rewrite Hnone, (filter_none_keeps_all _ _ Hnone). reflexivity.
  - apply filter_swap.
  - intros Hne.
    rewrite (filter_tag_frame (fun e => negb (Tag e =? t1)) recs t2);
      [reflexivity|].
    intros e _ He. apply negb_true_iff, Z.eqb_neq. congruence.
Qed.

Lemma Remove_twice_and_in_any_order_witness :
  1 <> 2 /\
  snd (Remove (fst (Remove [newTLV 1 [x61]; newTLV 2 [x62]; newTLV 1 [x63]] 1)) 2) =
    snd (Remove [newTLV 1 [x61]; newTLV 2 [x62]; newTLV 1 [x63]] 2).
Proof.
  assert (H : 1 <> 2) by discriminate.
  split; [exact H|].
  exact (proj2 (proj2 (Remove_twice_and_in_any_order
                         [newTLV 1 [x61]; newTLV 2 [x62]; newTLV 1 [x63]] 1 2)) H).
Defined.



(** X8. Removing the tag of a record that was just added removes it
    together with the earlier records of that tag: the list left is the
    one [Remove] leaves without the addition, and the count is one more.
    Removing another tag keeps the added record at the back. *)
Theorem Remove_after_Add (recs : TLVList) (tag : Z) (value : list byte) :
  Remove (Add recs tag value) tag =
    (fst (Remove recs tag), snd (Remove recs tag) + 1) /\
  (forall tag', tag' <> tag ->
     Remove (Add recs tag value) tag' =
       (Add (fst (Remove recs tag')) tag value, snd (Remove recs tag'))).
Proof.
  unfold Remove, Add, AddRecord. rewrite !remove_loop_spec. cbn [fst snd].
  split.
  - rewrite !filter_app.
    assert (Hin : filter (fun e => Tag e =? tag) [newTLV tag value] =
                  [newTLV tag value])
      by (rewrite newTLV_fields; cbn [filter Tag]; rewrite Z.eqb_refl; reflexivity).
    assert (Hout : filter (fun e => negb (Tag e =? tag)) [newTLV tag value] = [])
      by (rewrite newTLV_fields; cbn [filter Tag]; rewrite Z.eqb_refl; reflexivity).
    rewrite Hin, Hout, app_nil_r, length_app. cbn [length].
    apply (f_equal (pair _)). lia.
  - intros tag' Hne. rewrite !remove_loop_spec. cbn [fst snd].
    rewrite !filter_app.
    assert (Hneq : (tag =? tag') = false) by (apply Z.eqb_neq; congruence).
    assert (Hin : filter (fun e => Tag e =? tag') [newTLV tag value] = [])
      by (rewrite newTLV_fields; cbn [filter Tag]; rewrite Hneq; reflexivity).
    assert (Hout : filter (fun e => negb (Tag e =? tag')) [newTLV tag value] =
                   [newTLV tag value])
      by (rewrite newTLV_fields; cbn [filter Tag]; rewrite Hneq; reflexivity).
    rewrite Hin, Hout, app_nil_r. reflexivity.
Qed.

Lemma Remove_after_Add_witness :
  2 <> 1 /\
  Remove (Add [newTLV 1 [x61]; newTLV 2 [x62]] 1 [x63]) 2 =
    (Add (fst (Remove [newTLV 1 [x61]; newTLV 2 [x62]] 2)) 1 [x63],
     snd (Remove [newTLV 1 [x61]; newTLV 2 [x62]] 2)) /\
  Remove (Add [newTLV 1 [x61]; newTLV 2 [x62]] 1 [x63]) 1 =
    ([newTLV 2 [x62]], 2).
Proof.
  assert (H : 2 <> 1) by discriminate.
  destruct (Remove_after_Add [newTLV 1 [x61]; newTLV 2 [x62]] 1 [x63])
    as (Hsame & Hother).
  split; [exact H|]. split; [exact (Hother 2 H)|exact Hsame].
Defined.

(** * Further properties: writing *)

Lemma length_PutUint32 (v : Z) : length (binary.PutUint32 v) = 4%nat.
Proof. reflexivity. Qed.

Lemma length_encode (tlv : record) :
  length (encode tlv) = (8 + length (Value tlv))%nat.
Proof.
  unfold encode. rewrite !length_app, !length_PutUint32. lia.
Qed.

(** Writing two lists one after the other, stopping at the first error. *)
Lemma Write_app (recs1 recs2 : TLVList) (w : Buffer.t) :
  Write (recs1 ++ recs2) w =
  match Write recs1 w with
  | (Some e, w1) => (Some e, w1)
  | (None, w1) => Write recs2 w1
  end.
Proof.
  revert w. induction recs1 as [|e rest IH]; intros w; [reflexivity|].
  cbn [app Write].
  destruct (writeRecord e w) as [[err|] w1]; [reflexivity|].
  apply IH.
Qed.

(** [Write] in closed form: everything up to and including the first
    inconsistent record is appended. *)
Lemma Write_closed_form (recs : TLVList) (w : Buffer.t) :
  (Forall consistent recs /\ Write recs w = (None, w ++ encode_all recs)) \/
  (exists good bad rest,
     recs = good ++ bad :: rest /\ Forall consistent good /\ ~ consistent bad /\
     Write recs w = (Some ErrTLVWrite, w ++ encode_all good ++ encode bad)).
Proof.
  revert w. induction recs as [|e rest IH]; intros w.
  - left. split; [constructor|]. simpl. rewrite app_nil_r. reflexivity.
  - cbn [Write]. rewrite writeRecord_append.
    destruct (Z.eqb_spec (Length e) (len (Value e))) as [Hc|Hc].
    + destruct (IH (w ++ encode e))
        as [[Hall Hw]|(good & bad & rest' & -> & Hgood & Hbad & Hw)].
      * left. split; [constructor; assumption|].
        rewrite Hw, encode_all_cons, <- app_assoc. reflexivity.
      * right. exists (e :: good), bad, rest'.
        split; [reflexivity|]. split; [constructor; assumption|].
        split; [exact Hbad|].
        rewrite Hw, encode_all_cons, <- !app_assoc. reflexivity.
    + right. exists [], e, rest.
      split; [reflexivity|]. split; [constructor|]. split; [exact Hc|].
      reflexivity.
Qed.

(** X9. [Write] appends to the writer and keeps what it already holds;
    the bytes appended do not depend on that content.  Writing a list in
    two parts, the second part after the first, writes the same bytes as
    writing the whole list, and the second part is not written when the
    first part fails.  A list of consistent records takes eight bytes per
    record plus the bytes of the values. *)
Theorem Write_appends_in_order :
  (forall (recs : TLVList) (w : Buffer.t),
     Write recs w = (fst (Write recs []), w ++ snd (Write recs []))) /\
  (forall (recs1 recs2 : TLVList) (w : Buffer.t),
     Write (recs1 ++ recs2) w =
     match Write recs1 w with
     | (Some e, w1) => (Some e, w1)
     | (None, w1) => Write recs2 w1
     end) /\
  (forall recs : TLVList,
     Forall consistent recs ->
     fst (Write recs []) = None /\
     len (snd (Write recs [])) =
       fold_right (fun e n => 8 + Length e + n) 0 recs).
Proof.
  split; [|split].
  - intros recs w.
    destruct (Write_closed_form recs w)
      as [[Hall Hw]|(good & bad & rest & -> & Hgood & Hbad & Hw)];
      rewrite Hw.
    + rewrite (Write_append _ [] Hall). reflexivity.
    + pose proof (Write_app good (bad :: rest) []) as Happ.
      rewrite (Write_append _ [] Hgood) in Happ. cbn [app Write] in Happ.
      rewrite writeRecord_append in Happ.
      destruct (Z.eqb_spec (Length bad) (len (Value bad))) as [Hc|_];
        [contradiction|].
      rewrite Happ. cbn [fst snd]. reflexivity.
  - exact Write_app.
  - intros recs Hall. rewrite (Write_append _ [] Hall). cbn [fst snd app].
    split; [reflexivity|].
    induction Hall as [|e rest He _ IH]; [reflexivity|].
    rewrite encode_all_cons. unfold len in *.
    rewrite length_app, length_encode. cbn [fold_right].
    rewrite <- IH. unfold consistent, len in He. lia.
Qed.

Lemma Write_appends_in_order_witness :
  Forall consistent [newTLV 1 [x61]; newTLV 2 []] /\
  fst (Write [newTLV 1 [x61]; newTLV 2 []] []) = None /\
  len (snd (Write [newTLV 1 [x61]; newTLV 2 []] [])) = 17.
Proof.
  assert (H : Forall consistent [newTLV 1 [x61]; newTLV 2 []])
    by (repeat constructor).
  split; [exact H|].
  exact (proj2 (proj2 Write_appends_in_order) _ H).
Defined.

(** X10. On a buffer [Write] fails exactly when the list holds a record
    whose length differs from the length of its value, and the error is
    then [ErrTLVWrite].  It stops at the first such record: the records
    before it and that record itself, header and whole value, are in the
    writer (nothing is taken back), and no record after it is written. *)
Theorem Write_stops_at_first_inconsistent_record :
  (forall (recs : TLVList) (w : Buffer.t),
     fst (Write recs w) = None <-> Forall consistent recs) /\
  (forall (recs : TLVList) (w : Buffer.t) (e : error),
     fst (Write recs w) = Some e -> e = ErrTLVWrite) /\
  (forall (good rest : TLVList) (bad : record) (w : Buffer.t),
     Forall consistent good -> ~ consistent bad ->
     Write (good ++ bad :: rest) w =
       (Some ErrTLVWrite, w ++ encode_all good ++ encode bad) /\
     snd (Write (good ++ bad :: rest) w) =
       snd (writeRecord bad (snd (Write good w)))).
Proof.
  split; [|split].
  - intros recs w.
    destruct (Write_closed_form recs w)
      as [[Hall Hw]|(good & bad & rest & -> & Hgood & Hbad & Hw)];
      rewrite Hw; cbn [fst].
    + tauto.
    + split; [discriminate|]. intros Hall. exfalso. apply Hbad.
      rewrite Forall_forall in Hall. apply Hall.
      apply in_or_app. right. left. reflexivity.
  - intros recs w e.
    destruct (Write_closed_form recs w)
      as [[Hall Hw]|(good & bad & rest & -> & Hgood & Hbad & Hw)];
      rewrite Hw; cbn [fst]; congruence.
  - intros good rest bad w Hgood Hbad.
    rewrite Write_app, (Write_append _ w Hgood). cbn [Write snd].
    rewrite writeRecord_append.
    destruct (Z.eqb_spec (Length bad) (len (Value bad))) as [Hc|_];
      [contradiction|].
    rewrite <- app_assoc. split; reflexivity.
Qed.

Lemma Write_stops_at_first_inconsistent_record_witness :
  Write ([newTLV 1 [x61]] ++
         {| Tag := 2; Length := 5; Value := [x62] |} :: [newTLV 3 [x63]]) [] =
    (Some ErrTLVWrite,
     [] ++ encode_all [newTLV 1 [x61]] ++
     encode {| Tag := 2; Length := 5; Value := [x62] |}) /\
  snd (Write ([newTLV 1 [x61]] ++
              {| Tag := 2; Length := 5; Value := [x62] |} :: [newTLV 3 [x63]]) []) =
    snd (writeRecord {| Tag := 2; Length := 5; Value := [x62] |}
           (snd (Write [newTLV 1 [x61]] []))).
Proof.
  apply (proj2 (proj2 Write_stops_at_first_inconsistent_record)).
  - repeat constructor.
  - discriminate.
Defined.

(** * Further properties: reading *)

(** X11. What [readRecord] decodes, [writeRecord] writes back: when
    [readRecord] returns a record, the bytes it took from the stream,
    eight plus the length field, are exactly the bytes [writeRecord]
    writes for that record, and the rest of the stream is left unread.
    The record has a tag in the signed 32-bit range and a length that is
    not negative. *)
Theorem readRecord_then_writeRecord (r r' : list byte) (tlv : record) :
  readRecord r = Done (Ok tlv, r') ->
  exists consumed : list byte,
    r = consumed ++ r' /\
    writeRecord tlv [] = (None, consumed) /\
    len consumed = 8 + Length tlv /\
    in_int32 (Tag tlv) /\ 0 <= Length tlv < 2 ^ 31.
Proof.
  intros Hread.
  destruct (readRecord_Ok_inv _ _ _ Hread) as [(Hc & Ht & Hl) Hr].
  exists (encode tlv). split; [exact Hr|].
  split; [apply (writeRecord_consistent tlv [] Hc)|].
  unfold len. rewrite length_encode.
  unfold consistent, len in Hc. unfold in_int32 in Hl.
  split; [lia|]. split; [exact Ht|]. lia.
Qed.

Lemma readRecord_then_writeRecord_witness :
  exists consumed : list byte,
    [x07; x00; x00; x00; x01; x00; x00; x00; x61; x62] = consumed ++ [x62] /\
    writeRecord {| Tag := 7; Length := 1; Value := [x61] |} [] = (None, consumed) /\
    len consumed = 8 + 1 /\
    in_int32 7 /\ 0 <= 1 < 2 ^ 31.
Proof.
  apply (readRecord_then_writeRecord
           [x07; x00; x00; x00; x01; x00; x00; x00; x61; x62] [x62]
           {| Tag := 7; Length := 1; Value := [x61] |}).
  reflexivity.
Defined.

(** X12. [readRecord] reads one record and no more: on the bytes
    [writeRecord] wrote for a record of the wire format, followed by any
    bytes at all, it returns that record and leaves the following bytes in
    the reader; [tlvFromBytes] on such a slice returns the first record
    and ignores the rest. *)
Theorem readRecord_leaves_the_rest (tlv : record) (stream rest : list byte) :
  wire_record tlv ->
  writeRecord tlv [] = (None, stream) ->
  readRecord (stream ++ rest) = Done (Ok tlv, rest) /\
  tlvFromBytes (stream ++ rest) = Done (Ok tlv, rest).
Proof.
  intros Hw Hwrite.
  rewrite (writeRecord_consistent tlv [] (wire_record_consistent _ Hw)) in Hwrite.
  inversion Hwrite; subst stream. cbn [app].
  unfold tlvFromBytes, Buffer.NewBuffer.
  rewrite (readRecord_encode_wire tlv rest Hw). split; reflexivity.
Qed.

Lemma readRecord_leaves_the_rest_witness :
  wire_record (newTLV 7 [x61]) /\
  writeRecord (newTLV 7 [x61]) [] =
    (None, [x07; x00; x00; x00; x01; x00; x00; x00; x61]) /\
  readRecord ([x07; x00; x00; x00; x01; x00; x00; x00; x61] ++ [xff; xff]) =
    Done (Ok (newTLV 7 [x61]), [xff; xff]) /\
  tlvFromBytes ([x07; x00; x00; x00; x01; x00; x00; x00; x61] ++ [xff; xff]) =
    Done (Ok (newTLV 7 [x61]), [xff; xff]).
Proof.
  assert (Hw : wire_record (newTLV 7 [x61]))
    by (apply newTLV_wire_record; apply in_int32b_spec; reflexivity).
  split; [exact Hw|]. split; [reflexivity|].
  exact (readRecord_leaves_the_rest (newTLV 7 [x61])
           [x07; x00; x00; x00; x01; x00; x00; x00; x61] [xff; xff] Hw eq_refl).
Defined.

(** When the loop of [Read] panics, the stream is a run of encoded
    records followed by a tail on which [readRecord] panics. *)
Lemma Read_loop_Panicked_inv (r : Buffer.t) (acc : TLVList) :
  Read_loop r acc = Panicked ->
  exists (recs : TLVList) (tail : list byte),
    Forall wire_record recs /\
    r = encode_all recs ++ tail /\
    readRecord tail = Panicked.
Proof.
  funelim (Read_loop r acc); intros Hres.
  - match goal with
    | IH : Read_loop _ _ = Panicked -> _ |- _ =>
        destruct (IH Hres) as (recs' & tail & Hwf & Hr & Htail)
    end.
    destruct (readRecord_Ok_inv _ _ _ Hread) as [Htlv Hr0].
    exists (tlv :: recs'), tail.
    split; [constructor; assumption|].
    split; [rewrite encode_all_cons, <- app_assoc, <- Hr; exact Hr0|exact Htail].
  - discriminate.
  - exists [], r. split; [constructor|]. split; [reflexivity|assumption].
Qed.

(** X13. The streams that make the decoder panic: [readRecord] panics
    exactly when at least eight bytes are there and the length field is
    negative, and returns otherwise; [Read] panics exactly when, after a
    run of whole records, such a header follows. *)
Theorem panics_exactly_on_negative_length_field :
  (forall r : list byte,
     readRecord r = Panicked <-> (8 <= length r)%nat /\ length_field r < 0) /\
  (forall stream : list byte,
     Read stream = Panicked <->
     exists (recs : TLVList) (tail : list byte),
       Forall wire_record recs /\
       stream = encode_all recs ++ tail /\
       (8 <= length tail)%nat /\ length_field tail < 0).
Proof.
  split; [exact readRecord_Panicked_iff|].
  intros stream. unfold Read, New. split.
  - intros Hp.
    destruct (Read_loop_Panicked_inv _ _ Hp) as (recs & tail & Hwf & Hr & Htail).
    exists recs, tail. split; [exact Hwf|]. split; [exact Hr|].
    apply readRecord_Panicked_iff. exact Htail.
  - intros (recs & tail & Hwf & -> & Htail).
    rewrite (Read_loop_encode_all _ _ _ Hwf).
    apply Read_loop_Panicked. apply readRecord_Panicked_iff. exact Htail.
Qed.

Lemma panics_exactly_on_negative_length_field_witness :
  Read (encode_all [newTLV 1 [x61]] ++
        [x02; x00; x00; x00; x00; x00; x00; x80; x62]) = Panicked.
Proof.
  apply (proj2 panics_exactly_on_negative_length_field).
  exists [newTLV 1 [x61]], [x02; x00; x00; x00; x00; x00; x00; x80; x62].
  split.
  - repeat constructor; apply in_int32b_spec; reflexivity.
  - split; [reflexivity|]. split; [simpl; lia|].
    apply Z.ltb_lt. reflexivity.
Defined.

(** X15. Records in front of a stream come out in front of the list:
    when the bytes written for a list of records of the wire format are
    followed by any stream, [Read] gives what it gives on that stream
    alone, with the records of the list put before its records; an error
    or a panic of the second stream comes through unchanged.  So reading
    two lists written one after the other gives the two lists joined. *)
Theorem Read_after_written_records :
  (forall (recs : TLVList) (stream s : list byte),
     Forall wire_record recs ->
     Write recs [] = (None, stream) ->
     Read (stream ++ s) = with_records_before recs (Read s)) /\
  (forall (recs1 recs2 : TLVList) (w1 w2 : Buffer.t),
     Forall wire_record recs1 -> Forall wire_record recs2 ->
     Write recs1 [] = (None, w1) ->
     Write recs2 w1 = (None, w2) ->
     Read w2 = Done (Ok (recs1 ++ recs2))).
Proof.
  assert (Hfront : forall recs s, Forall wire_record recs ->
            Read (encode_all recs ++ s) = with_records_before recs (Read s)).
  { intros recs s Hwf. unfold Read, New.
    rewrite (Read_loop_encode_all _ _ _ Hwf). cbn [app].
    destruct (Read_loop s []) as [res|] eqn:Hs.
    - destruct (Read_loop_inv _ _ _ Hs)
        as (recs' & tail & r' & p & e & Hwf' & -> & Htail & ->).
      rewrite (Read_loop_encode_all _ _ _ Hwf').
      rewrite (Read_loop_Err _ _ _ _ _ Htail).
      destruct (error_eqb e EOF); reflexivity.
    - destruct (Read_loop_Panicked_inv _ _ Hs) as (recs' & tail & Hwf' & -> & Htail).
      rewrite (Read_loop_encode_all _ _ _ Hwf').
      rewrite (Read_loop_Panicked _ _ Htail). reflexivity. }
  split.
  - intros recs stream s Hwf Hwrite.
    rewrite (Write_append _ [] (Forall_wire_consistent _ Hwf)) in Hwrite.
    inversion Hwrite; subst stream. cbn [app]. apply Hfront. exact Hwf.
  - intros recs1 recs2 w1 w2 Hwf1 Hwf2 Hw1 Hw2.
    rewrite (Write_append _ [] (Forall_wire_consistent _ Hwf1)) in Hw1.
    inversion Hw1; subst w1. cbn [app] in Hw2.
    rewrite (Write_append _ _ (Forall_wire_consistent _ Hwf2)) in Hw2.
    inversion Hw2; subst w2.
    rewrite (Hfront recs1 _ Hwf1).
    pose proof (Hfront recs2 [] Hwf2) as H2. rewrite app_nil_r in H2.
    rewrite H2. unfold Read, New.
    rewrite (Read_loop_Err [] [] [] None EOF eq_refl). simpl.
    rewrite app_nil_r. reflexivity.
Qed.

Lemma Read_after_written_records_witness :
  Forall wire_record [newTLV 1 [x61]] /\
  Write [newTLV 1 [x61]] [] =
    (None, [x01; x00; x00; x00; x01; x00; x00; x00; x61]) /\
  Read ([x01; x00; x00; x00; x01; x00; x00; x00; x61] ++ [x02; x00]) =
    with_records_before [newTLV 1 [x61]] (Read [x02; x00]) /\
  Read [x02; x00] = Done (Err (Some []) ErrUnexpectedEOF).
Proof.
  assert (Hwf : Forall wire_record [newTLV 1 [x61]])
    by (repeat constructor; apply in_int32b_spec; reflexivity).
  split; [exact Hwf|]. split; [reflexivity|]. split; [|reflexivity].
  exact (proj1 Read_after_written_records [newTLV 1 [x61]]
           [x01; x00; x00; x00; x01; x00; x00; x00; x61] [x02; x00] Hwf eq_refl).
Defined.

(** X16. The wire format is unambiguous: two lists of records of the wire
    format for which [Write] writes the same bytes are the same list, and
    two such records for which [writeRecord] writes the same bytes are
    the same record. *)
Theorem written_bytes_determine_the_list :
  (forall recs1 recs2 : TLVList,
     Forall wire_record recs1 -> Forall wire_record recs2 ->
     Write recs1 [] = Write recs2 [] -> recs1 = recs2) /\
  (forall tlv1 tlv2 : record,
     wire_record tlv1 -> wire_record tlv2 ->
     writeRecord tlv1 [] = writeRecord tlv2 [] -> tlv1 = tlv2).
Proof.
  split.
  - intros recs1 recs2 Hwf1 Hwf2 Heq.
    rewrite !Write_append in Heq by (apply Forall_wire_consistent; assumption).
    cbn [app] in Heq.
    assert (Henc : encode_all recs1 = encode_all recs2) by congruence.
    pose proof (Read_loop_encode_all recs1 [] [] Hwf1) as H1.
    pose proof (Read_loop_encode_all recs2 [] [] Hwf2) as H2.
    rewrite Henc, H2 in H1. cbn [app] in H1.
    rewrite !(Read_loop_Err [] [] _ None EOF eq_refl) in H1.
    simpl in H1. inversion H1. reflexivity.
  - intros tlv1 tlv2 Hwf1 Hwf2 Heq.
    rewrite !writeRecord_consistent in Heq
      by (apply wire_record_consistent; assumption).
    cbn [app] in Heq.
    assert (Henc : encode tlv1 = encode tlv2) by congruence.
    pose proof (readRecord_encode_wire tlv1 [] Hwf1) as H1.
    pose proof (readRecord_encode_wire tlv2 [] Hwf2) as H2.
    rewrite Henc, H2 in H1. inversion H1. reflexivity.
Qed.

Lemma written_bytes_determine_the_list_witness :
  [newTLV 1 [x61]; newTLV 2 []] = [newTLV 1 [x61]; newTLV 2 []].
Proof.
  apply (proj1 written_bytes_determine_the_list).
  - repeat constructor; apply in_int32b_spec; reflexivity.
  - repeat constructor; apply in_int32b_spec; reflexivity.
  - reflexivity.
Defined.

(** X14. A value of 2 GiB or more is written but cannot be read back: for
    a record made by [newTLV] whose value has between [2^31] and [2^32 - 1]
    bytes, [writeRecord] succeeds, but the length field it writes is
    [int32(len(value))], a negative number, so [readRecord] and [Read]
    panic on the bytes written, whatever follows them. *)
Theorem long_value_is_written_but_not_read
    (tag : Z) (value rest : list byte) :
  2 ^ 31 <= len value < 2 ^ 32 ->
  exists stream : list byte,
    writeRecord (newTLV tag value) [] = (None, stream) /\
    length_field stream = len value - 2 ^ 32 /\
    readRecord (stream ++ rest) = Panicked /\
    Read (stream ++ rest) = Panicked.
Proof.
  intros Hlen.
  pose proof (newTLV_consistent tag value) as Hc.
  exists (encode (newTLV tag value)).
  rewrite (writeRecord_consistent _ [] Hc).
  rewrite newTLV_fields in *.
  assert (Hneg : int32 (len value) = len value - 2 ^ 32).
  { unfold int32.
    replace (len value + 2 ^ 31) with (len value - 2 ^ 31 + 1 * 2 ^ 32) by lia.
    rewrite Z.mod_add by lia. rewrite Z.mod_small by lia. lia. }
  assert (Hread : readRecord (encode {| Tag := tag; Length := len value;
                                        Value := value |} ++ rest) = Panicked).
  { unfold readRecord, encode. cbn [Tag Length Value]. rewrite <- !app_assoc.
    rewrite !binary_Read_int32_put. unfold makeslice.
    replace (int32 (len value) <? 0) with true
      by (symmetry; apply Z.ltb_lt; lia).
    reflexivity. }
  split; [reflexivity|]. split; [|split].
  - unfold length_field, encode, binary.PutUint32 at 1 2. cbn [Tag Length Value].
    cbn [app skipn firstn].
    change [byte_of_Z ?a; byte_of_Z ?b; byte_of_Z ?c; byte_of_Z ?d]
      with (binary.PutUint32 (uint32 (int32 (len value)))).
    rewrite Uint32_PutUint32. fold (uint32 (uint32 (int32 (len value)))).
    rewrite !int32_uint32, (int32_id _ (int32_in_range (len value))).
    exact Hneg.
  - exact Hread.
  - unfold Read, New. apply Read_loop_Panicked. exact Hread.
Qed.

Lemma long_value_is_written_but_not_read_witness :
  2 ^ 31 <= len (repeat x00 (Z.to_nat (2 ^ 31))) < 2 ^ 32 /\
  exists stream : list byte,
    writeRecord (newTLV 1 (repeat x00 (Z.to_nat (2 ^ 31)))) [] = (None, stream) /\
    length_field stream = len (repeat x00 (Z.to_nat (2 ^ 31))) - 2 ^ 32 /\
    readRecord (stream ++ []) = Panicked /\
    Read (stream ++ []) = Panicked.
Proof.
  assert (H : 2 ^ 31 <= len (repeat x00 (Z.to_nat (2 ^ 31))) < 2 ^ 32).
  { unfold len. rewrite repeat_length, Z2Nat.id by lia. lia. }
  split; [exact H|].
  exact (long_value_is_written_but_not_read 1 _ [] H).
Defined.

(** * Further properties: writers that fail *)

(** On a buffer the functions over any writer are [writeRecord] and
    [Write]: the buffer never fails, so the only error is the package's. *)
Lemma writeRecord_to_Buffer (tlv : record) (w : Buffer.t) :
  writeRecord_to Buffer.Write tlv w =
  (option_map TLVError (fst (writeRecord tlv w)), snd (writeRecord tlv w)).
Proof.
  unfold writeRecord_to, writeRecord, binary_Write_int32_to, binary_Write_int32.
  cbn [Buffer.Write].
  destruct (negb (Z.of_nat (length (Value tlv)) =? Length tlv)); reflexivity.
Qed.

Lemma Write_to_Buffer (recs : TLVList) (w : Buffer.t) :
  Write_to Buffer.Write recs w =
  (option_map TLVError (fst (Write recs w)), snd (Write recs w)).
Proof.
  revert w. induction recs as [|e rest IH]; intros w; [reflexivity|].
  cbn [Write_to Write]. rewrite writeRecord_to_Buffer.
  destruct (writeRecord e w) as [[err|] w1]; cbn [fst snd option_map];
    [reflexivity|apply IH].
Qed.

Lemma firstn_app_full (n : nat) (l m : list byte) :
  (n <= length l)%nat -> firstn n (l ++ m) = firstn n l.
Proof.
  intros Hn. rewrite firstn_app.
  replace (n - length l)%nat with 0%nat by lia.
  rewrite firstn_O, app_nil_r. reflexivity.
Qed.

(** One write to a limited writer: it holds the first [capacity] bytes of
    what it was given so far, and fails when that is not everything. *)
Lemma LimitedWriter_Write_spec (w : LimitedWriter.t) (p : list byte) :
  (length (LimitedWriter.content w) <= LimitedWriter.capacity w)%nat ->
  let all := LimitedWriter.content w ++ p in
  let c := LimitedWriter.capacity w in
  snd (LimitedWriter.Write w p) =
    {| LimitedWriter.capacity := c; LimitedWriter.content := firstn c all |} /\
  ((length all <= c)%nat ->
   fst (LimitedWriter.Write w p) = (length p, None) /\ firstn c all = all) /\
  ((c < length all)%nat ->
   snd (fst (LimitedWriter.Write w p)) = Some LimitedWriter.ErrShortWrite).
Proof.
  intros Hinv all c. subst all c. unfold LimitedWriter.Write.
  rewrite length_app.
  destruct (Nat.leb_spec (length p)
              (LimitedWriter.capacity w - length (LimitedWriter.content w)))
    as [Hfit|Hover]; cbn [fst snd].
  - rewrite firstn_all2 by (rewrite length_app; lia).
    split; [reflexivity|]. split; [auto|lia].
  - split; [|split; [lia|reflexivity]].
    rewrite firstn_app, (firstn_all2 (LimitedWriter.content w)) by lia.
    reflexivity.
Qed.

Lemma LimitedWriter_Write_cases (c : nat) (held p : list byte) :
  (length held <= c)%nat ->
  ((length (held ++ p) <= c)%nat /\
   LimitedWriter.Write (LimitedWriter.mk c held) p =
     (length p, None, LimitedWriter.mk c (held ++ p))) \/
  ((c < length (held ++ p))%nat /\
   exists n,
     LimitedWriter.Write (LimitedWriter.mk c held) p =
       (n, Some LimitedWriter.ErrShortWrite,
        LimitedWriter.mk c (firstn c (held ++ p)))).
Proof.
  intros Hinv.
  destruct (LimitedWriter_Write_spec (LimitedWriter.mk c held) p Hinv)
    as (Hstate & Hfit & Hover).
  cbn [LimitedWriter.capacity LimitedWriter.content] in *.
  destruct (LimitedWriter.Write (LimitedWriter.mk c held) p) as [[n err] w'].
  cbn [fst snd] in *. subst w'.
  destruct (Nat.le_gt_cases (length (held ++ p)) c) as [Hle|Hgt].
  - left. split; [exact Hle|].
    destruct (Hfit Hle) as [Hres Hall]. rewrite Hall. congruence.
  - right. split; [exact Hgt|]. exists n. rewrite (Hover Hgt). reflexivity.
Qed.

(** One record to a limited writer. *)
Lemma writeRecord_to_limited (c : nat) (held : list byte) (tlv : record) :
  (length held <= c)%nat -> consistent tlv ->
  writeRecord_to LimitedWriter.Write tlv (LimitedWriter.mk c held) =
  (if (length (held ++ encode tlv) <=? c)%nat then None
   else Some (WriterError LimitedWriter.ErrShortWrite),
   LimitedWriter.mk c (firstn c (held ++ encode tlv))).
Proof.
  intros Hinv Hc. unfold writeRecord_to, binary_Write_int32_to, encode.
  set (tagb := binary.PutUint32 (uint32 (int32 (Tag tlv)))).
  set (lenb := binary.PutUint32 (uint32 (int32 (Length tlv)))).
  assert (Hfull : forall a b : list byte,
            (c < length a)%nat ->
            (if (length (a ++ b) <=? c)%nat then None
             else Some (WriterError LimitedWriter.ErrShortWrite),
             LimitedWriter.mk c (firstn c (a ++ b))) =
            (Some (WriterError LimitedWriter.ErrShortWrite),
             LimitedWriter.mk c (firstn c a))).
  { intros a b Ha. rewrite (firstn_app_full c a b) by lia.
    destruct (Nat.leb_spec (length (a ++ b)) c) as [Hle|_]; [|reflexivity].
    rewrite length_app in Hle. lia. }
  rewrite (app_assoc held tagb (lenb ++ Value tlv)).
  destruct (LimitedWriter_Write_cases c held tagb Hinv)
    as [[Hfit1 ->]|[Hover1 [n1 ->]]];
    [|symmetry; apply Hfull; exact Hover1].
  rewrite (app_assoc (held ++ tagb) lenb (Value tlv)).
  destruct (LimitedWriter_Write_cases c (held ++ tagb) lenb Hfit1)
    as [[Hfit2 ->]|[Hover2 [n2 ->]]];
    [|symmetry; apply Hfull; exact Hover2].
  destruct (LimitedWriter_Write_cases c ((held ++ tagb) ++ lenb) (Value tlv) Hfit2)
    as [[Hfit3 ->]|[Hover3 [n3 ->]]].
  - destruct (Nat.leb_spec (length (((held ++ tagb) ++ lenb) ++ Value tlv)) c)
      as [_|Hgt]; [|lia].
    rewrite firstn_all2 by lia.
    unfold consistent, len in Hc. rewrite Hc, Z.eqb_refl. reflexivity.
  - destruct (Nat.leb_spec (length (((held ++ tagb) ++ lenb) ++ Value tlv)) c)
      as [Hle|_]; [lia|reflexivity].
Qed.

(** X17. No roll back on a writer that fills up: when a list of consistent
    records is written to a writer with room for [c] bytes, [Write]
    succeeds if the whole encoding fits; otherwise it returns the writer's
    error (not [ErrTLVWrite]), and the writer holds exactly the first [c]
    bytes of the encoding, which may end inside a record.  In both cases
    the writer holds the first [c] bytes of what [Write] writes to a
    buffer. *)
Theorem Write_to_full_writer (recs : TLVList) (c : nat) :
  Forall consistent recs ->
  let stream := snd (Write recs []) in
  Write_to LimitedWriter.Write recs (LimitedWriter.mk c []) =
  (if (length stream <=? c)%nat then None
   else Some (WriterError LimitedWriter.ErrShortWrite),
   LimitedWriter.mk c (firstn c stream)).
Proof.
  intros Hall stream. subst stream.
  rewrite (Write_append _ [] Hall). cbn [snd app].
  assert (Hgen : forall held, (length held <= c)%nat ->
            Write_to LimitedWriter.Write recs (LimitedWriter.mk c held) =
            (if (length (held ++ encode_all recs) <=? c)%nat then None
             else Some (WriterError LimitedWriter.ErrShortWrite),
             LimitedWriter.mk c (firstn c (held ++ encode_all recs)))).
  { induction Hall as [|e rest He _ IH]; intros held Hinv.
    - cbn [Write_to encode_all flat_map]. rewrite app_nil_r.
      destruct (Nat.leb_spec (length held) c) as [_|Hgt]; [|lia].
      rewrite firstn_all2 by lia. reflexivity.
    - cbn [Write_to]. rewrite (writeRecord_to_limited c held e Hinv He).
      rewrite encode_all_cons, app_assoc.
      destruct (Nat.leb_spec (length (held ++ encode e)) c) as [Hfit|Hover].
      + rewrite firstn_all2 by lia. apply IH. exact Hfit.
      + rewrite (firstn_app_full c (held ++ encode e)) by lia.
        destruct (Nat.leb_spec (length ((held ++ encode e) ++ encode_all rest)) c)
          as [Hle|_]; [|reflexivity].
        rewrite length_app in Hle. lia. }
  apply (Hgen [] (Nat.le_0_l c)).
Qed.

Lemma Write_to_full_writer_witness :
  Forall consistent [newTLV 1 [x61]; newTLV 2 [x62; x63]] /\
  Write_to LimitedWriter.Write [newTLV 1 [x61]; newTLV 2 [x62; x63]]
    (LimitedWriter.mk 14 []) =
  (Some (WriterError LimitedWriter.ErrShortWrite),
   LimitedWriter.mk 14
     [x01; x00; x00; x00; x01; x00; x00; x00; x61;
      x02; x00; x00; x00; x02]).
Proof.
  assert (H : Forall consistent [newTLV 1 [x61]; newTLV 2 [x62; x63]])
    by (repeat constructor).
  split; [exact H|].
  exact (Write_to_full_writer [newTLV 1 [x61]; newTLV 2 [x62; x63]] 14 H).
Defined.

(** * Further properties: the slice that [Value] returns *)

(** X18. [Value] returns the record's own slice, not a copy: after
    [newTLV], a write at an index below the length through the slice of
    the record's value succeeds and changes the byte the record reads at
    that index, and only that byte.  The caller's slice, which [newTLV]
    copied from, still reads its bytes. *)
Theorem Value_is_the_record_s_storage
    (h : Heap.store) (tag : Z) (s : Heap.slice) (i : nat) (b : byte) :
  Heap.valid h s -> (i < Heap.slen s)%nat ->
  let h' := fst (Heap.newTLV h tag s) in
  let t := snd (Heap.newTLV h tag s) in
  exists h2 : Heap.store,
    Heap.store_byte h' (Heap.value t) i b = Done h2 /\
    Value (Heap.load h2 t) =
      firstn i (Heap.bytes h s) ++ b :: skipn (S i) (Heap.bytes h s) /\
    Tag (Heap.load h2 t) = tag /\
    Length (Heap.load h2 t) = Z.of_nat (Heap.slen s) /\
    Heap.bytes h2 s = Heap.bytes h s.
Proof.
  intros Hv Hi. rewrite (Heap_newTLV_store h tag s Hv). cbv zeta.
  cbn [fst snd Heap.value].
  pose proof (length_bytes h s Hv) as Hlen.
  set (v := Heap.bytes h s) in *.
  exists (h ++ [firstn i v ++ b :: skipn (S i) v]).
  split; [|split; [|split; [|split]]].
  - unfold Heap.store_byte. cbn [Heap.slen Heap.array Heap.offset].
    destruct (Nat.ltb_spec i (Heap.slen s)) as [_|Hge]; [|lia].
    rewrite array_at_new, set_array_new. reflexivity.
  - unfold Heap.load, Heap.bytes.
    cbn [Value Heap.value Heap.array Heap.offset Heap.slen].
    rewrite array_at_new, skipn_O. apply firstn_all2.
    rewrite length_app, length_firstn. cbn [length]. rewrite length_skipn. lia.
  - reflexivity.
  - reflexivity.
  - destruct Hv as [Harr _]. subst v. unfold Heap.bytes.
    rewrite array_at_old by exact Harr. reflexivity.
Qed.

Lemma Value_is_the_record_s_storage_witness :
  Heap.valid [[x61; x62; x63]] (Heap.mkSlice 0 1 2) /\
  (0 < Heap.slen (Heap.mkSlice 0 1 2))%nat /\
  exists h2 : Heap.store,
    Heap.store_byte (fst (Heap.newTLV [[x61; x62; x63]] 7 (Heap.mkSlice 0 1 2)))
      (Heap.value (snd (Heap.newTLV [[x61; x62; x63]] 7 (Heap.mkSlice 0 1 2))))
      0 xff = Done h2 /\
    Value (Heap.load h2
             (snd (Heap.newTLV [[x61; x62; x63]] 7 (Heap.mkSlice 0 1 2)))) =
      firstn 0 (Heap.bytes [[x61; x62; x63]] (Heap.mkSlice 0 1 2)) ++
      xff :: skipn 1 (Heap.bytes [[x61; x62; x63]] (Heap.mkSlice 0 1 2)) /\
    Tag (Heap.load h2
           (snd (Heap.newTLV [[x61; x62; x63]] 7 (Heap.mkSlice 0 1 2)))) = 7 /\
    Length (Heap.load h2
              (snd (Heap.newTLV [[x61; x62; x63]] 7 (Heap.mkSlice 0 1 2)))) =
      Z.of_nat (Heap.slen (Heap.mkSlice 0 1 2)) /\
    Heap.bytes h2 (Heap.mkSlice 0 1 2) =
      Heap.bytes [[x61; x62; x63]] (Heap.mkSlice 0 1 2).
Proof.
  assert (Hv : Heap.valid [[x61; x62; x63]] (Heap.mkSlice 0 1 2))
    by (split; simpl; lia).
  assert (Hi : (0 < Heap.slen (Heap.mkSlice 0 1 2))%nat) by (simpl; lia).
  split; [exact Hv|]. split; [exact Hi|].
  exact (Value_is_the_record_s_storage
           [[x61; x62; x63]] 7 (Heap.mkSlice 0 1 2) 0 xff Hv Hi).
Defined.
